(** * beatnik: text notation for drum tracks and its MIDI encoding

    A shallow embedding of the parser of the text format (text.go) and of
    the binary encoder of tracks (the type definitions file), with the
    properties of both that the specification states.

    Conventions.  Go's [byte], [uint32] and [uint] are modelled as [N]; every
    operation that can leave the range of its type has the wrap-around written
    out.  A Go [string] is a Stdlib [string] (a sequence of bytes).  A
    [*bytes.Buffer] is the list of bytes written so far.  A Go map read with
    the one-result form [m[k]] yields the zero value on a missing key: this is
    [lookup0]. *)

From Stdlib Require Import ZArith NArith Ascii String List Lia.
From Stdlib Require Import Floats.SpecFloat.
From Stdlib Require Import DecimalString.
From stdpp Require Import gmap strings list fin_maps.

Local Open Scope N_scope.

(** ** Machine integers *)

Abbreviation byte := N (only parsing).
Abbreviation uint32 := N (only parsing).
Abbreviation uint := N (only parsing).

Definition wrap8 (n : N) : byte := n mod 2 ^ 8.
Definition wrap32 (n : N) : uint32 := n mod 2 ^ 32.
Definition wrap64 (n : N) : uint := n mod 2 ^ 64.

(** [m[k]] on a map whose values are numbers. *)
Definition lookup0 {K} `{Countable K} (m : gmap K N) (k : K) : N :=
  default 0 (m !! k).

(** ** Regular expressions

    The token shapes of text.go are regular expressions, all anchored at both
    ends, so [MatchString] is membership of the whole token in the
    language of the expression.  Matching is by Brzozowski derivatives; [lang]
    is the denotation the matcher is proved against.  Go matches over UTF-8
    runes; every class used below contains either only ASCII bytes or all
    non-ASCII bytes, so matching byte by byte accepts the same strings. *)

Module Regexp.

Inductive regex : Type :=
| Void
| Eps
| Chr (p : ascii → bool)
| Cat (r1 r2 : regex)
| Alt (r1 r2 : regex)
| Star (r : regex).

(** [r?] and [r+]. *)
Definition Opt (r : regex) : regex := Alt r Eps.
Definition Plus (r : regex) : regex := Cat r (Star r).

Inductive lang : regex → list ascii → Prop :=
| lang_eps : lang Eps []
| lang_chr p c : p c = true → lang (Chr p) [c]
| lang_cat r1 r2 s1 s2 : lang r1 s1 → lang r2 s2 → lang (Cat r1 r2) (s1 ++ s2)
| lang_alt_l r1 r2 s : lang r1 s → lang (Alt r1 r2) s
| lang_alt_r r1 r2 s : lang r2 s → lang (Alt r1 r2) s
| lang_star_nil r : lang (Star r) []
| lang_star_app r s1 s2 : lang r s1 → lang (Star r) s2 → lang (Star r) (s1 ++ s2).

Fixpoint nullable (r : regex) : bool :=
  match r with
  | Void => false
  | Eps => true
  | Chr _ => false
  | Cat r1 r2 => nullable r1 && nullable r2
  | Alt r1 r2 => nullable r1 || nullable r2
  | Star _ => true
  end.

Fixpoint deriv (c : ascii) (r : regex) : regex :=
  match r with
  | Void => Void
  | Eps => Void
  | Chr p => if p c then Eps else Void
  | Cat r1 r2 =>
      if nullable r1 then Alt (Cat (deriv c r1) r2) (deriv c r2)
      else Cat (deriv c r1) r2
  | Alt r1 r2 => Alt (deriv c r1) (deriv c r2)
  | Star r1 => Cat (deriv c r1) (Star r1)
  end.

Fixpoint matches (r : regex) (s : list ascii) : bool :=
  match s with
  | [] => nullable r
  | c :: s' => matches (deriv c r) s'
  end.

(** [re.MatchString(s)] for an anchored expression. *)
Definition MatchString (r : regex) (s : string) : bool :=
  matches r (list_ascii_of_string s).

(** Character classes. *)
Definition one (c : ascii) : ascii → bool := Ascii.eqb c.
Definition allbut (c : ascii) : ascii → bool := λ x, negb (Ascii.eqb c x).
Definition between (lo hi : ascii) : ascii → bool :=
  λ x, (N_of_ascii lo <=? N_of_ascii x) && (N_of_ascii x <=? N_of_ascii hi).
Definition either (p q : ascii → bool) : ascii → bool := λ x, p x || q x.

(** The longest prefix of [s] inside a class, and the rest. *)
Fixpoint span (p : ascii → bool) (s : list ascii) : list ascii * list ascii :=
  match s with
  | [] => ([], [])
  | c :: s' =>
      if p c then let '(a, b) := span p s' in (c :: a, b) else ([], s)
  end.

(** The character after a run, if any, is outside the class. *)
Definition stops (p : ascii → bool) (s : list ascii) : bool :=
  match s with
  | [] => true
  | c :: _ => negb (p c)
  end.

(** An expression that matches nothing, by its shape. *)
Fixpoint dead (r : regex) : bool :=
  match r with
  | Void => true
  | Eps | Chr _ | Star _ => false
  | Cat r1 r2 => dead r1 || dead r2
  | Alt r1 r2 => dead r1 && dead r2
  end.

(** Every class of the expression lies inside [p]. *)
Fixpoint classes_in (p : ascii → bool) (r : regex) : Prop :=
  match r with
  | Void | Eps => True
  | Chr q => ∀ c, q c = true → p c = true
  | Cat r1 r2 | Alt r1 r2 => classes_in p r1 ∧ classes_in p r2
  | Star r1 => classes_in p r1
  end.

End Regexp.

Import Regexp.

(** ** Results and parse errors *)

(** The pair [(value, error)] a Go function returns, when exactly one of the
    two is meaningful. *)
Inductive result (A E : Type) : Type :=
| Ok (a : A)
| Err (e : E).
Arguments Ok {A E} a.
Arguments Err {A E} e.

(** ** Helpers of the encoder that are not in the sources at hand *)

Module Midi.

(** Modelled from the spec: [uvarint], the variable-length-quantity encoder
    the hit encoder calls, is not among the given sources.  "Encodes an
    unsigned integer as one or more bytes, most-significant group first: each
    byte carries 7 value bits; every byte except the last has its high bit
    set (continuation), the last has it clear."  The groups above the lowest
    one are pushed in front of what is already there, one per non-zero
    remainder; a number has fewer 7-bit groups than bits, which bounds the
    recursion. *)
Fixpoint uvarint_more (fuel : nat) (n : N) (acc : list byte) : list byte :=
  match fuel with
  | O => acc
  | S fuel' =>
      if n =? 0 then acc
      else uvarint_more fuel' (N.shiftr n 7) (N.lor (N.land n 127) 128 :: acc)
  end.

Definition uvarint (u : uint) : list byte :=
  uvarint_more (N.to_nat (N.size u)) (N.shiftr u 7) [N.land u 127].

(** Modelled from the spec: the decoder of variable-length quantities is not
    among the given sources.  "Decoding reverses this: accumulate 7-bit
    groups, shifting left 7 each step, until a byte with the high bit clear is
    consumed."  The result is the value and the bytes left unread; [None]
    when the input ends inside a quantity. *)
Fixpoint readUvarint_from (acc : N) (bs : list byte) : option (N * list byte) :=
  match bs with
  | [] => None
  | b :: rest =>
      let acc' := N.lor (N.shiftl acc 7) (N.land b 127) in
      if N.testbit b 7 then readUvarint_from acc' rest else Some (acc', rest)
  end.

Definition readUvarint (bs : list byte) : option (N * list byte) :=
  readUvarint_from 0 bs.

(** Modelled from the spec: [bin], which the chunk encoders call on a
    [uint32], is not among the given sources; the spec has "4-byte big-endian"
    length fields.  [be16] is [binary.Write(buf, binary.BigEndian, uint16(_))]. *)
Definition bin (u : uint32) : list byte :=
  [wrap8 (N.shiftr u 24); wrap8 (N.shiftr u 16); wrap8 (N.shiftr u 8); wrap8 u].

Definition be16 (u : N) : list byte := [wrap8 (N.shiftr u 8); wrap8 u].

(** [[]byte(s)] *)
Definition bytes_of (s : string) : list byte :=
  N_of_ascii <$> list_ascii_of_string s.

End Midi.

(** ** IEEE 754 binary64, as far as the tempo computation needs it *)

Module Float64.

Definition prec : Z := 53.
Definition emax : Z := 1024.

(** [float64(u)] of an unsigned integer: the nearest double, ties to even. *)
Definition of_uint (u : N) : spec_float :=
  binary_normalize prec emax (Z.of_N u) 0 false.

Definition div : spec_float → spec_float → spec_float := SFdiv prec emax.
Definition mul : spec_float → spec_float → spec_float := SFmul prec emax.

(** The integer part of a finite double, rounded toward zero. *)
Definition trunc (f : spec_float) : option Z :=
  match f with
  | S754_zero _ => Some 0%Z
  | S754_finite s m e =>
      let a := match e with
               | Zneg k => Z.shiftr (Zpos m) (Zpos k)
               | _ => Z.shiftl (Zpos m) e
               end in
      Some (if s then (- a)%Z else a)
  | S754_infinity _ | S754_nan => None
  end.

(** [uint32(f)].  Go truncates toward zero; where the truncated value is not
    a [uint32] (and for infinities and NaN) the result is left to the
    implementation: [None]. *)
Definition to_uint32 (f : spec_float) : option uint32 :=
  match trunc f with
  | Some z => if ((0 <=? z) && (z <? 2 ^ 32))%Z then Some (Z.to_N z) else None
  | None => None
  end.

End Float64.

(** ** Tracks (the type definitions file) *)

(** A track: [Hits []*Hit] and [BPM uint].  The two source files at hand are
    from different revisions and disagree on [Hit]: the type definitions
    declare three fields (a set of notes, ticks, one velocity for the hit),
    while the parser builds [&Hit{notes, d}] with a velocity per note.  Each
    module below follows its own file, and [Track] takes the hit type as a
    parameter. *)
Record Track (H : Type) : Type := mkTrack {
  Hits : list H;
  BPM : uint
}.
Arguments mkTrack {H} Hits BPM.
Arguments Hits {H} t.
Arguments BPM {H} t.

Module Types.

Import Midi.

(** Velocity is a drum hit's volume: a [byte]. *)
Abbreviation Velocity := N (only parsing).

Definition PPP : Velocity := 16.
Definition PP : Velocity := 32.
Definition P : Velocity := 48.
Definition MP : Velocity := 64.
Definition MF : Velocity := 80.
Definition F : Velocity := 96.
Definition FF : Velocity := 112.
Definition FFF : Velocity := 127.

(** A Hit is a set of drums being hit at the same time. *)
Record Hit : Type := mkHit {
  Notes : gset byte;   (* map[byte]struct{} *)
  T : uint;
  V : Velocity
}.

(** [NewHit(ticks, v, notes...)] *)
Definition NewHit (ticks : uint) (v : Velocity) (notes : list byte) : Hit :=
  mkHit (foldl (λ s n, {[n]} ∪ s) ∅ notes) ticks v.

(** [for n := range m]: the loop body runs once for every key of the map, in
    an order Go leaves unspecified, and that may differ from one loop to the
    next over the same map.  [l] is a possible order of visit. *)
Definition range_order (m : gset byte) (l : list byte) : Prop :=
  l ≡ₚ elements m.

(** The body of the first loop of [Hit.encode]. *)
Definition encode_on (h : Hit) (buf : list byte) (n : byte) : list byte :=
  buf ++ [0; 0x99; n; V h].

(** The body of the second loop, on the buffer and the [first] flag. *)
Definition encode_off (h : Hit) (st : list byte * bool) (n : byte)
  : list byte * bool :=
  let '(buf, first) := st in
  let '(buf, first) :=
    if first then (buf ++ uvarint (T h), false)
    else (buf ++ uvarint 0, first) in
  (buf ++ [0x89; n; 64], first).

(** [Hit.encode], run with the two loops visiting the notes in the orders
    [on] and [off]. *)
Definition encode_run (h : Hit) (on off : list byte) : list byte :=
  let buf := foldl (encode_on h) [] on in
  fst (foldl (encode_off h) (buf, true) off).

(** [h.encode()] may return [bs]. *)
Inductive encode (h : Hit) : list byte → Prop :=
| encode_intro on off :
    range_order (Notes h) on → range_order (Notes h) off →
    encode h (encode_run h on off).

(** [encodeHeaderChunk] *)
Definition encodeHeaderChunk : list byte :=
  bytes_of "MThd" ++ bin 6 ++ be16 1 ++ be16 2 ++ be16 96.

(** Microseconds per beat, as [encodeMetaChunk] computes it:
    [mpb := 1 / float64(t.BPM); uspb := uint32(mpb * 60 * 1000000)]. *)
Definition uspb (bpm : uint) : option uint32 :=
  let mpb := Float64.div (Float64.of_uint 1) (Float64.of_uint bpm) in
  Float64.to_uint32
    (Float64.mul (Float64.mul mpb (Float64.of_uint 60))
       (Float64.of_uint 1000000)).

(** The three bytes written after the tempo event's header: [bin(uspb)[1:]]. *)
Definition tempo_payload (u : uint32) : list byte := drop 1 (bin u).

(** The body of the metadata chunk ([buf2]). *)
Definition meta_body (u : uint32) : list byte :=
  [0; 0xFF; 0x58; 4; 4; 2; 24; 8] ++ [0; 0xFF; 0x51; 3] ++ tempo_payload u
    ++ [0; 0xFF; 0x2F; 0].

(** [encodeMetaChunk] *)
Definition encodeMetaChunk (t : Track Hit) : option (list byte) :=
  u ← uspb (BPM t);
  let buf2 := meta_body u in
  Some ((bytes_of "MTrk" ++ bin (wrap32 (N.of_nat (length buf2)))) ++ buf2).

(** [encodeHits], given what [h.encode()] returned for each hit in turn. *)
Definition encodeHits_run (encoded : list (list byte)) : list byte :=
  let buf2 := foldl (λ buf bs, buf ++ bs) [] encoded in
  let buf2 := buf2 ++ [0; 0xFF; 0x2F; 0] in
  (bytes_of "MTrk" ++ bin (wrap32 (N.of_nat (length buf2)))) ++ buf2.

Definition encodeHits (t : Track Hit) (out : list byte) : Prop :=
  ∃ encoded, Forall2 encode (Hits t) encoded ∧ out = encodeHits_run encoded.

(** [MarshalBinary] *)
Definition MarshalBinary (t : Track Hit) (out : list byte) : Prop :=
  ∃ meta hits,
    encodeMetaChunk t = Some meta ∧ encodeHits t hits ∧
    out = (encodeHeaderChunk ++ meta) ++ hits.

End Types.

(** ** The parser of the text format (text.go) *)

Module Text.

Abbreviation Velocity := N (only parsing).

(** The hit the parser builds, [&Hit{notes, d}]: the notes with the velocity
    of each, and the ticks the hit lasts. *)
Record Hit : Type := mkHit {
  Notes : gmap byte Velocity;   (* map[byte]Velocity *)
  T : uint
}.

Definition set_T (f : uint → uint) (h : Hit) : Hit := mkHit (Notes h) (f (T h)).

(** *** Token shapes *)

(** The class [0-9A-Z]. *)
Definition drum : ascii → bool := either (between "0" "9") (between "A" "Z").

(** The pattern (?: \+* | -* ). *)
Definition velocity_re : regex :=
  Alt (Star (Chr (one "+"))) (Star (Chr (one "-"))).

(** The pattern [0-9A-Z]+ (?: \+* | -* ). *)
Definition note_re : regex := Cat (Plus (Chr drum)) velocity_re.

(** Group 1 of [hitToken]: a note, then (?: , note )* . *)
Definition notes_re : regex :=
  Cat note_re (Star (Cat (Chr (one ",")) note_re)).

(** Group 2 of [hitToken], and the whole of [waitToken]: (?: \.* | ~* ) >? . *)
Definition duration_re : regex :=
  Cat (Alt (Star (Chr (one "."))) (Star (Chr (one "~")))) (Opt (Chr (one ">"))).

(** The pattern ^ \(? ( group 1 ) ( group 2 ) \)? $ . *)
Definition hitToken : regex :=
  Cat (Opt (Chr (one "("))) (Cat notes_re (Cat duration_re (Opt (Chr (one ")"))))).

(** The pattern ^ ( [0-9A-Z]+ ) ( \+* | -* ) $ . *)
Definition noteToken : regex := note_re.

(** The pattern ^ (?: \.* | ~* ) >? $ . *)
Definition waitToken : regex := duration_re.

(** The pattern ^ ( [^:]+ ) : ( .* ) $ ; the dot is any character but a
    line feed. *)
Definition directiveToken : regex :=
  Cat (Plus (Chr (allbut ":")))
    (Cat (Chr (one ":")) (Star (Chr (allbut "010")))).

(** The characters group 1 and group 2 of [hitToken] are made of.  The two
    sets are disjoint and contain neither parenthesis, so a token that matches
    splits into its groups in one way only: the groups are the longest run of
    the first set and the longest run of the second that follows it. *)
Definition notes_char : ascii → bool :=
  either drum (either (one "+") (either (one "-") (one ","))).
Definition duration_char : ascii → bool :=
  either (one ".") (either (one "~") (one ">")).

Definition strip_open (s : list ascii) : list ascii :=
  match s with
  | c :: s' => if Ascii.eqb c "(" then s' else s
  | [] => s
  end.

(** [hitToken.FindStringSubmatch(s)]: [m[1]] and [m[2]], or [nil]. *)
Definition hitToken_FindStringSubmatch (s : string) : option (string * string) :=
  if MatchString hitToken s then
    let '(g1, rest) := span notes_char (strip_open (list_ascii_of_string s)) in
    let '(g2, _) := span duration_char rest in
    Some (string_of_list_ascii g1, string_of_list_ascii g2)
  else None.

(** [noteToken.FindStringSubmatch(s)] *)
Definition noteToken_FindStringSubmatch (s : string) : option (string * string) :=
  if MatchString noteToken s then
    let '(g1, g2) := span drum (list_ascii_of_string s) in
    Some (string_of_list_ascii g1, string_of_list_ascii g2)
  else None.

(** [directiveToken.FindStringSubmatch(s)] *)
Definition directiveToken_FindStringSubmatch (s : string)
  : option (string * string) :=
  if MatchString directiveToken s then
    let '(g1, rest) := span (allbut ":") (list_ascii_of_string s) in
    Some (string_of_list_ascii g1, string_of_list_ascii (drop 1 rest))
  else None.

(** *** Lexical tables *)

(** Maps +- notation to actual velocities. *)
Definition velocities : gmap string Velocity :=
  list_to_map
    [("-----", Types.PPP); ("----", Types.PP); ("---", Types.P);
     ("--", Types.MP); ("-", Types.MF); ("", Types.F); ("+", Types.FF);
     ("++", Types.FFF)].

(** Maps notation to note duration in ticks: the map literal. *)
Definition durations_literal : gmap string uint :=
  list_to_map
    [("~~", 96 * 4); ("~", 96 * 2); ("", 96); (".", 96 / 2); ("..", 96 / 4);
     ("...", 96 / 8); ("....", 96 / 16); (".....", 96 / 32)].

(** The body of the loop of [init] that adds triplets:
    [durations[d+">"] = durations[d] * 2 / 3]. *)
Definition add_triplet (m : gmap string uint) (d : string) : gmap string uint :=
  <[d +:+ ">" := wrap64 (lookup0 m d * 2) / 3]> m.

(** [for d := range durations { ... }] inserts into the map it ranges over.
    Go visits every entry that is there when the loop starts once; an entry
    the body creates may be visited later in the same loop, or skipped.
    [init_range m0 seen m m'] : from the map [m] with the keys [seen] visited,
    the loop over the map that started as [m0] may end with [m']. *)
Inductive init_range (m0 : gmap string uint)
  : gset string → gmap string uint → gmap string uint → Prop :=
| init_range_done seen m :
    dom m0 ⊆ seen → init_range m0 seen m m
| init_range_visit seen m d m' :
    d ∈ dom m → d ∉ seen →
    init_range m0 (seen ∪ {[d]}) (add_triplet m d) m' →
    init_range m0 seen m m'.

(** [m] is a possible content of [durations] once [init] has run. *)
Definition init_durations (m : gmap string uint) : Prop :=
  init_range durations_literal ∅ durations_literal m.

(** The run of the loop that visits the eight entries of the literal and
    nothing else. *)
Definition durations_once : gmap string uint :=
  foldl add_triplet durations_literal
    ["~~"; "~"; ""; "."; ".."; "..."; "...."; "....."].

(** [fmt.Sprint(i)] *)
Definition Sprint (i : N) : string := NilZero.string_of_uint (N.to_uint i).

(** [drumNotes] after the first loop of [init]: ["38" ↦ byte(38)] for 1..255. *)
Definition numbered_notes : gmap string byte :=
  foldl (λ m i, <[Sprint i := wrap8 i]> m) ∅ (N.of_nat <$> seq 1 255).

(** [drumNotes] after the second loop, which copies the aliases over it.
    The alias table [ezDrummer] is not among the given sources: it is a
    parameter. *)
Definition drumNotes (ezDrummer : gmap string byte) : gmap string byte :=
  ezDrummer ∪ numbered_notes.

(** *** Errors *)

(** [strconv.Atoi]'s two ways to fail. *)
Inductive NumError : Type := ErrSyntax | ErrRange.

(** What went wrong, one constructor for each message of text.go. *)
Inductive cause : Type :=
| GraceParenthesis                  (* grace notes should have parenthesis on both sides *)
| BadHit (s : string)               (* bad hit: %q *)
| BadNoteToken (part : string)      (* bad note token: %q *)
| BadDrumNumber (s : string)        (* bad drum number: %q *)
| BadVelocity (s : string)          (* bad velocity: %q *)
| BadDuration (s : string)          (* bad duration: %q *)
| GraceTooLong (ticks last : uint)  (* grace note is too long: %v ticks, should be less than %v *)
| NoPrecedingNote                   (* duration with no preceding note *)
| BadDirective (s : string)         (* bad directive: %q *)
| UnknownDirective (name : string)  (* unknown directive: %q *)
| BadBPMInput (e : NumError)        (* bad input to BPM: %v *)
| BadBPM (bpm : Z)                  (* bad BPM: %v, must be between 1 and 500 *)
| UnrecognizedToken (s : string).   (* unrecognized token: %q *)

(** ["token #%v: ..."]: the number printed after [#], and the cause. *)
Inductive error : Type := TokenError (number : nat) (c : cause).

Definition token_number (e : error) : nat :=
  match e with TokenError n _ => n end.

(** *** Tokenizer *)

(** [comment.ReplaceAllString(s, "")] where [comment] is a # and
    what follows it up to the end of the line. *)
Fixpoint strip_comments (in_comment : bool) (s : list ascii) : list ascii :=
  match s with
  | [] => []
  | c :: s' =>
      if in_comment then
        if Ascii.eqb c "010" then c :: strip_comments false s'
        else strip_comments true s'
      else if Ascii.eqb c "#" then strip_comments true s'
      else c :: strip_comments false s'
  end.

(** The class \s: tab, line feed, form feed, carriage return, space. *)
Definition is_space (c : ascii) : bool :=
  either (one "009") (either (one "010") (either (one "012")
    (either (one "013") (one " ")))) c.

Definition emit (cur : list ascii) : list string :=
  match cur with
  | [] => []
  | _ => [string_of_list_ascii cur]
  end.

(** [tokenizer.Split(s, -1)] with the empty pieces dropped; [cur] is the
    piece being read. *)
Fixpoint fields (cur : list ascii) (s : list ascii) : list string :=
  match s with
  | [] => emit cur
  | c :: s' =>
      if is_space c then emit cur ++ fields [] s' else fields (cur ++ [c]) s'
  end.

Definition tokenize (s : string) : list string :=
  fields [] (strip_comments false (list_ascii_of_string s)).

(** *** Hits *)

(** [strings.Split(s, ",")] *)
Fixpoint split_at (sep : ascii) (cur : list ascii) (s : list ascii) : list string :=
  match s with
  | [] => [string_of_list_ascii cur]
  | c :: s' =>
      if Ascii.eqb c sep then string_of_list_ascii cur :: split_at sep [] s'
      else split_at sep (cur ++ [c]) s'
  end.

Definition first_is (c : ascii) (s : string) : bool :=
  match s with
  | String a _ => Ascii.eqb a c
  | EmptyString => false
  end.

Definition last_is (c : ascii) (s : string) : bool :=
  match last (list_ascii_of_string s) with
  | Some a => Ascii.eqb a c
  | None => false
  end.

(** parenthesized returns true if s starts and ends with parenthesis. *)
Definition parenthesized (s : string) : bool :=
  (0 <? String.length s)%nat && first_is "(" s && last_is ")" s.

(** halfParenthesized returns true if s only starts or only ends with
    parenthesis. *)
Definition halfParenthesized (s : string) : bool :=
  (0 <? String.length s)%nat &&
  ((first_is "(" s && negb (last_is ")" s)) ||
   (negb (first_is "(" s) && last_is ")" s)).

Section Parser.

(** The alias table and the duration table as [init] left it. *)
Variable ezDrummer : gmap string byte.
Variable durations : gmap string uint.

(** The loop of [parseNotes] over the parts still to read. *)
Fixpoint parseNotes_loop (notes : gmap byte Velocity) (parts : list string)
  : result (gmap byte Velocity) cause :=
  match parts with
  | [] => Ok notes
  | part :: rest =>
      match noteToken_FindStringSubmatch part with
      | None => Err (BadNoteToken part)
      | Some (m1, m2) =>
          let note := lookup0 (drumNotes ezDrummer) m1 in
          let v := lookup0 velocities m2 in
          if note =? 0 then Err (BadDrumNumber m1)
          else if v =? 0 then Err (BadVelocity m2)
          else parseNotes_loop (<[note := v]> notes) rest
      end
  end.

(** parseNotes parses the notes section of a hit token. *)
Definition parseNotes (s : string) : result (gmap byte Velocity) cause :=
  parseNotes_loop ∅ (split_at "," [] (list_ascii_of_string s)).

(** parseHit parses a single hit token and returns the constructed hit. *)
Definition parseHit (s : string) : result Hit cause :=
  match hitToken_FindStringSubmatch s with
  | None => Err (BadHit s)
  | Some (m1, m2) =>
      match parseNotes m1 with
      | Err e => Err e
      | Ok notes =>
          let d := lookup0 durations m2 in
          if d =? 0 then Err (BadDuration m2) else Ok (mkHit notes d)
      end
  end.

(** *** Directives *)

Definition is_digit (c : ascii) : bool := between "0" "9" c.
Definition digit_value (c : ascii) : Z := Z.of_N (N_of_ascii c - N_of_ascii "0").

(** [strconv.Atoi]: an optional sign, then one decimal digit or more and
    nothing else; the value has to fit an [int] (64 bits). *)
Definition Atoi (s : string) : result Z NumError :=
  let l := list_ascii_of_string s in
  let '(neg, ds) :=
    match l with
    | c :: r =>
        if Ascii.eqb c "-" then (true, r)
        else if Ascii.eqb c "+" then (false, r) else (false, l)
    | [] => (false, l)
    end in
  match ds with
  | [] => Err ErrSyntax
  | _ =>
      if forallb is_digit ds then
        let n := foldl (λ acc c, acc * 10 + digit_value c)%Z 0%Z ds in
        let z := if neg then (- n)%Z else n in
        if ((- 2 ^ 63 <=? z) && (z <? 2 ^ 63))%Z then Ok z else Err ErrRange
      else Err ErrSyntax
  end.

(** A directive is a function that alters the track itself: the track it
    leaves, and the error it returns, if any. *)
Definition directive : Type := Track Hit → string → Track Hit * option cause.

(** bpmDirective changes a track's bpm. *)
Definition bpmDirective : directive := λ t s,
  match Atoi s with
  | Err e => (t, Some (BadBPMInput e))
  | Ok bpm =>
      if ((bpm <? 1) || (500 <? bpm))%Z then (t, Some (BadBPM bpm))
      else (mkTrack (Hits t) (wrap64 (Z.to_N bpm)), None)
  end.

(** Maps directive name (in text syntax) to its handler. *)
Definition directives : gmap string directive := {[ "bpm" := bpmDirective ]}.

(** parseDirective parses a directive token and runs it. *)
Definition parseDirective (t : Track Hit) (s : string) : Track Hit * option cause :=
  match directiveToken_FindStringSubmatch s with
  | None => (t, Some (BadDirective s))
  | Some (m1, m2) =>
      match directives !! m1 with
      | None => (t, Some (UnknownDirective m1))
      | Some d => d t m2
      end
  end.

(** *** Tracks *)

(** [t.Hits[len(t.Hits)-1]] updated in place. *)
Definition alter_last (f : Hit → Hit) (hs : list Hit) : list Hit :=
  alter f (length hs - 1)%nat hs.

(** The body of the loop of [ParseTrack], for the token at index [i] of the
    token list (the first token has index 0). *)
Definition parseToken (i : nat) (t : Track Hit) (token : string)
  : result (Track Hit) error :=
  if MatchString hitToken token then
    if halfParenthesized token then Err (TokenError i GraceParenthesis)
    else
      let grace := parenthesized token in
      let token :=
        if grace then substring 1 (String.length token - 2) token else token in
      match parseHit token with
      | Err e => Err (TokenError i e)
      | Ok h =>
          if grace && (0 <? length (Hits t))%nat then
            match last (Hits t) with
            | Some l =>
                if T l <=? T h then
                  Err (TokenError i (GraceTooLong (T h) (T l)))
                else
                  Ok (mkTrack
                        (alter_last (set_T (λ x, x - T h)) (Hits t) ++ [h])
                        (BPM t))
            | None => Ok (mkTrack (Hits t ++ [h]) (BPM t))
            end
          else Ok (mkTrack (Hits t ++ [h]) (BPM t))
      end
  else if MatchString waitToken token then
    let d := lookup0 durations token in
    if d =? 0 then Err (TokenError (i + 1) (BadDuration token))
    else if (length (Hits t) =? 0)%nat then
      Err (TokenError (i + 1) NoPrecedingNote)
    else Ok (mkTrack (alter_last (set_T (λ x, wrap64 (x + d))) (Hits t)) (BPM t))
  else if MatchString directiveToken token then
    match parseDirective t token with
    | (_, Some e) => Err (TokenError i e)
    | (t', None) => Ok t'
    end
  else Err (TokenError (i + 1) (UnrecognizedToken token)).

Fixpoint ParseTrack_loop (i : nat) (t : Track Hit) (tokens : list string)
  : result (Track Hit) error :=
  match tokens with
  | [] => Ok t
  | token :: rest =>
      match parseToken i t token with
      | Err e => Err e
      | Ok t' => ParseTrack_loop (S i) t' rest
      end
  end.

(** ParseTrack parses hit notations separated by whitespaces. *)
Definition ParseTrack (s : string) : result (Track Hit) error :=
  ParseTrack_loop 0 (mkTrack [] 0) (tokenize s).

End Parser.

End Text.

(** ** The specification's side

    What the specification says in its own terms, for the statements that
    compare it with the code. *)

Module Spec.

(** A MIDI event of the note track: the delta-time, sent as a
    variable-length quantity, then the status byte and two data bytes. *)
Record event : Type := mkEvent {
  delta : uint;
  status : byte;
  data1 : byte;
  data2 : byte
}.

Definition event_bytes (e : event) : list byte :=
  Midi.uvarint (delta e) ++ [status e; data1 e; data2 e].

(** "one note-on event per note in the hit (delta-time zero, fixed status
    byte, instrument code, velocity byte)" *)
Definition note_on (velocity : byte) (n : byte) : event :=
  mkEvent 0 0x99 n velocity.

(** "one note-off event per note [...] using a fixed note-off velocity of
    64" *)
Definition note_off (dt : uint) (n : byte) : event := mkEvent dt 0x89 n 64.

(** "the first note-off in the group carries the hit's duration [...] as its
    delta-time; every subsequent note-off in the same hit carries delta-time
    zero" *)
Definition note_offs (duration : uint) (notes : list byte) : list event :=
  match notes with
  | [] => []
  | n :: rest => note_off duration n :: (note_off 0 <$> rest)
  end.

(** The events of a hit, its notes taken in the order [on] for the note-on
    events and in the order [off] for the note-off events. *)
Definition hit_events (h : Types.Hit) (on off : list byte) : list event :=
  (note_on (Types.V h) <$> on) ++ note_offs (Types.T h) off.

(** "a zero-delta end-of-track meta event" *)
Definition end_of_track : list byte := [0x00; 0xFF; 0x2F; 0x00].

(** The number a sequence of bytes is, most significant byte first. *)
Definition be_value (bs : list byte) : N := foldl (λ acc b, acc * 256 + b) 0 bs.

(** [a / b] rounded to the nearest integer, halves up: the spec's
    "round(60,000,000 / bpm)". *)
Definition nearest (a b : N) : N := (2 * a + b) / (2 * b).

(** The integer a string of decimal digits with an optional sign denotes;
    [None] for anything else. *)
Definition digits_value (ds : list ascii) : Z :=
  foldl (λ acc c, acc * 10 + Text.digit_value c)%Z 0%Z ds.

Definition unsigned (ds : list ascii) : option Z :=
  match ds with
  | [] => None
  | _ => if forallb Text.is_digit ds then Some (digits_value ds) else None
  end.

Definition numeral (v : string) : option Z :=
  match list_ascii_of_string v with
  | c :: ds =>
      if Ascii.eqb c "-" then Z.opp <$> unsigned ds
      else if Ascii.eqb c "+" then unsigned ds
      else unsigned (c :: ds)
  | [] => None
  end.

End Spec.

(** The number of [>] in a key of the duration table. *)
Fixpoint gt_count (s : string) : nat :=
  match s with
  | EmptyString => 0
  | String c s' => (if Ascii.eqb c ">" then 1 else 0) + gt_count s'
  end.

(** ** Auxiliary definitions of the proofs *)

(** The keys of the literal of [durations]. *)
Definition literal_keys : list string :=
  ["~~"; "~"; ""; "."; ".."; "..."; "...."; "....."].

(** What every map met during the loop of [init] satisfies: the keys
    without [>] are those of the literal, a key with one [>] is absent or as
    in [durations_once], and the triplet of every key of the literal that
    was visited is there. *)
Definition table_inv (seen : gset string) (m : gmap string uint) : Prop :=
  (∀ k, gt_count k = 0%nat → m !! k = Text.durations_literal !! k) ∧
  (∀ k, gt_count k = 1%nat →
        m !! k = None ∨ m !! k = Text.durations_once !! k) ∧
  (∀ d, d ∈ seen → d ∈ dom Text.durations_literal →
        m !! (d +:+ ">") = Text.durations_once !! (d +:+ ">")).

(** The computation in double precision gives the quotient of the integer
    division (or the tempo is zero). *)
Definition uspb_is_quotient (b : N) : bool :=
  (b =? 0) ||
  match Types.uspb b with
  | Some u => u =? 60000000 / b
  | None => false
  end.

(** ** Notions the further properties are stated with *)

(** A character a token can hold: no white space, no [#]. *)
Definition token_char (c : ascii) : Prop :=
  Text.is_space c = false ∧ c ≠ "#"%char.

(** The ticks of the hits of a track, added up. *)
Definition total_ticks (hs : list Text.Hit) : N :=
  foldr (λ h s, Text.T h + s) 0 hs.

(** The eight velocities of the table [velocities]. *)
Definition levels : list N := [16; 32; 48; 64; 80; 96; 112; 127].

(** A note of a parsed hit: an instrument that is not zero, at one of the
    eight velocities. *)
Definition note_ok (n v : N) : Prop := n ≠ 0 ∧ v ∈ levels.

(** The causes that need a token to fail an expression it has matched. *)
Definition unreachable_cause (c : Text.cause) : bool :=
  match c with
  | Text.BadHit _ | Text.BadNoteToken _ | Text.BadDirective _ => true
  | _ => false
  end.

(** The hit token without its parentheses, if it has them. *)
Definition strip_grace (tok : string) : string :=
  if Text.parenthesized tok then substring 1 (String.length tok - 2) tok
  else tok.

(** The hit a token stands for, when it is a hit token that parses. *)
Definition hit_of_token (ezDrummer : gmap string byte)
    (durations : gmap string uint) (tok : string) : option Text.Hit :=
  if MatchString Text.hitToken tok && negb (Text.halfParenthesized tok) then
    match Text.parseHit ezDrummer durations (strip_grace tok) with
    | Ok h => Some h
    | Err _ => None
    end
  else None.

(** The number of bytes [Hit.encode] writes for a hit: eight per note, the
    delta-time of the first note-off being the duration instead of one zero
    byte; nothing for a hit without notes. *)
Definition hit_size (h : Types.Hit) : nat :=
  match size (Types.Notes h) with
  | O => 0
  | S k => 8 * S k - 1 + length (Midi.uvarint (Types.T h))
  end.

(** An entry of the numbered notes: the decimal of a number of 1..255. *)
Definition numbered_entry (k : string) (v : N) : Prop :=
  k = Text.Sprint v ∧ 1 ≤ v ∧ v ≤ 255.

(** The hits of a track after [k] tokens: notes as [note_ok] has them, and
    a duration that is not zero and at most [384 * k]. *)
Definition hits_within (k : N) (hs : list Text.Hit) : Prop :=
  Forall (λ h, Text.Notes h ≠ ∅ ∧ map_Forall note_ok (Text.Notes h) ∧
               0 < Text.T h ∧ Text.T h ≤ 384 * k) hs.

(** ** Correctness of the matcher *)

Section MatcherCorrect.

Lemma nullable_lang r : nullable r = true ↔ lang r [].
Proof.
  split.
  - induction r; simpl; intros Hn; try discriminate.
    + constructor.
    + apply andb_prop in Hn as [H1 H2].
      change (@nil ascii) with (@nil ascii ++ []). constructor; auto.
    + apply orb_prop in Hn as [H1|H2]; [apply lang_alt_l|apply lang_alt_r]; auto.
    + constructor.
  - intros Hl. remember [] as s eqn:Es.
    induction Hl; simpl; subst; try discriminate; auto.
    + apply app_eq_nil in Es as [-> ->]. rewrite IHHl1, IHHl2; auto.
    + rewrite IHHl; auto.
    + rewrite IHHl; auto. apply orb_true_r.
Qed.

Lemma star_cons_inv r c s :
  lang (Star r) (c :: s) →
  ∃ s1 s2, s = s1 ++ s2 ∧ lang r (c :: s1) ∧ lang (Star r) s2.
Proof.
  intros Hl. remember (Star r) as r' eqn:Er. remember (c :: s) as w eqn:Ew.
  revert s Ew.
  induction Hl; intros s' Ew; try discriminate.
  injection Er as ->.
  destruct s1 as [|a s1]; simpl in Ew.
  - apply IHHl2; auto.
  - injection Ew as -> <-. exists s1, s2. auto.
Qed.

Lemma deriv_lang c r s : lang (deriv c r) s ↔ lang r (c :: s).
Proof.
  revert s. induction r; intros s; simpl.
  - split; inversion 1.
  - split; inversion 1.
  - destruct (p c) eqn:Hp; split; intros Hl.
    + inversion Hl; subst. constructor; auto.
    + inversion Hl; subst. constructor.
    + inversion Hl.
    + inversion Hl; subst. congruence.
  - assert (Hcat : lang (Cat (deriv c r1) r2) s →  lang (Cat r1 r2) (c :: s)).
    { intros Hl. inversion Hl; subst.
      change (c :: s1 ++ s2) with ((c :: s1) ++ s2).
      constructor; auto. apply IHr1; auto. }
    destruct (nullable r1) eqn:Hn; split; intros Hl.
    + inversion Hl; subst; auto.
      change (c :: s) with ([] ++ c :: s). constructor.
      * apply nullable_lang; auto.
      * apply IHr2; auto.
    + inversion Hl; subst. destruct s1 as [|a s1]; simpl in *.
      * apply lang_alt_r. apply IHr2. subst; auto.
      * match goal with E : _ :: _ = _ :: _ |- _ => injection E as -> <- end.
        apply lang_alt_l. constructor; auto. apply IHr1; auto.
    + auto.
    + inversion Hl; subst. destruct s1 as [|a s1]; simpl in *.
      * match goal with E : lang r1 [] |- _ => apply nullable_lang in E end.
        congruence.
      * match goal with E : _ :: _ = _ :: _ |- _ => injection E as -> <- end.
        constructor; auto. apply IHr1; auto.
  - split; intros Hl; inversion Hl; subst.
    + apply lang_alt_l, IHr1; auto.
    + apply lang_alt_r, IHr2; auto.
    + apply lang_alt_l, IHr1; auto.
    + apply lang_alt_r, IHr2; auto.
  - split; intros Hl.
    + inversion Hl; subst.
      change (c :: s1 ++ s2) with ((c :: s1) ++ s2).
      constructor; auto. apply IHr; auto.
    + apply star_cons_inv in Hl as (s1 & s2 & -> & H1 & H2).
      constructor; auto. apply IHr; auto.
Qed.

Lemma matches_lang r s : matches r s = true ↔ lang r s.
Proof.
  revert r. induction s as [|c s IH]; intros r; simpl.
  - apply nullable_lang.
  - rewrite IH. apply deriv_lang.
Qed.

End MatcherCorrect.

(** ** Expressions that match nothing *)

Section Dead.

Lemma dead_not_nullable r : dead r = true → nullable r = false.
Proof.
  induction r; simpl; intros Hd; try discriminate; auto.
  - apply orb_prop in Hd as [Hd|Hd].
    + rewrite IHr1; auto.
    + rewrite IHr2; auto. apply andb_false_r.
  - apply andb_prop in Hd as [H1 H2]. rewrite IHr1, IHr2; auto.
Qed.

Lemma dead_deriv c r : dead r = true → dead (deriv c r) = true.
Proof.
  induction r; simpl; intros Hd; try discriminate; auto.
  - apply orb_prop in Hd as [Hd|Hd].
    + rewrite (dead_not_nullable r1 Hd). simpl. rewrite IHr1; auto.
    + destruct (nullable r1); simpl; rewrite ?IHr2, Hd; auto;
        rewrite orb_true_r; auto.
  - apply andb_prop in Hd as [H1 H2]. rewrite IHr1, IHr2; auto.
Qed.

Lemma dead_matches r s : dead r = true → matches r s = false.
Proof.
  revert r. induction s as [|c s IH]; intros r Hd; simpl.
  - apply dead_not_nullable; auto.
  - apply IH, dead_deriv; auto.
Qed.

(** A token whose first character no match can start with. *)
Lemma matches_dead_head r c s :
  dead (deriv c r) = true → matches r (c :: s) = false.
Proof. intros Hd. simpl. apply dead_matches; auto. Qed.

End Dead.

(** ** Membership from the characters of a string *)

Section Classes.

Lemma lang_star_class p s : forallb p s = true → lang (Star (Chr p)) s.
Proof.
  induction s as [|c s IH]; simpl; intros Hs.
  - constructor.
  - apply andb_prop in Hs as [Hc Hs].
    change (c :: s) with ([c] ++ s). constructor; auto. constructor; auto.
Qed.

Lemma lang_plus_class p c s :
  p c = true → forallb p s = true → lang (Plus (Chr p)) (c :: s).
Proof.
  intros Hc Hs. change (c :: s) with ([c] ++ s).
  constructor; [constructor; auto|apply lang_star_class; auto].
Qed.

Lemma span_run p a b :
  forallb p a = true → stops p b = true → span p (a ++ b) = (a, b).
Proof.
  intros Ha Hb. induction a as [|c a IH]; simpl in *.
  - destruct b as [|c b]; simpl; auto.
    apply negb_true_iff in Hb. rewrite Hb. auto.
  - apply andb_prop in Ha as [Hc Ha]. rewrite Hc, IH; auto.
Qed.

End Classes.

(** ** The groups of a match

    However a token splits into the groups of its expression, the
    [FindStringSubmatch] functions return that split: there is one split
    only, so it is the one Go returns. *)

Section Groups.

Import Text.

Lemma lang_classes p r s : classes_in p r → lang r s → forallb p s = true.
Proof.
  intros Hp Hl. induction Hl; simpl in *; auto.
  - rewrite Hp; auto.
  - destruct Hp as [H1 H2]. rewrite forallb_app, IHHl1, IHHl2; auto.
  - apply IHHl. tauto.
  - apply IHHl. tauto.
  - rewrite forallb_app, IHHl1, IHHl2; auto.
Qed.

(** Checks a fact about every character. *)
Ltac each_char := intros [[] [] [] [] [] [] [] []]; vm_compute; auto.

Lemma notes_re_classes : classes_in notes_char notes_re.
Proof. simpl. repeat split; each_char. Qed.

Lemma duration_re_classes : classes_in duration_char duration_re.
Proof. simpl. repeat split; each_char. Qed.

Lemma velocity_re_classes :
  classes_in (either (one "+") (one "-")) velocity_re.
Proof. simpl. repeat split; each_char. Qed.

Lemma duration_not_notes c : duration_char c = true → notes_char c = false.
Proof. revert c. each_char. Qed.

Lemma velocity_not_drum c : either (one "+") (one "-") c = true → drum c = false.
Proof. revert c. each_char. Qed.

Lemma drum_not_open c : drum c = true → Ascii.eqb c "(" = false.
Proof. revert c. each_char. Qed.

Lemma lang_opt_char c s : lang (Opt (Chr (one c))) s → s = [] ∨ s = [c].
Proof.
  intros Hl. inversion Hl as [| | |? ? ? H1|? ? ? H2| |]; subst.
  - inversion H1 as [|? c' Hc| | | | |]; subst.
    apply Ascii.eqb_eq in Hc. subst. auto.
  - inversion H2. auto.
Qed.

Lemma lang_plus_head p s :
  lang (Plus (Chr p)) s → ∃ c s', s = c :: s' ∧ p c = true ∧ forallb p s' = true.
Proof.
  intros Hl. inversion Hl as [| |? ? s1 s2 H1 H2| | | |]; subst.
  inversion H1; subst. exists c, s2. repeat split; auto.
  apply (lang_classes p (Star (Chr p))); simpl; auto.
Qed.

Lemma notes_re_head s :
  lang notes_re s → ∃ c s', s = c :: s' ∧ drum c = true.
Proof.
  intros Hl. inversion Hl as [| |? ? s1 s2 H1 _| | | |]; subst.
  inversion H1 as [| |? ? s3 s4 H3 _| | | |]; subst.
  apply lang_plus_head in H3 as (c & s' & -> & Hc & _).
  exists c, ((s' ++ s4) ++ s2). auto.
Qed.

Lemma hitToken_groups p g1 g2 q :
  lang (Opt (Chr (one "("))) p → lang notes_re g1 → lang duration_re g2 →
  lang (Opt (Chr (one ")"))) q →
  hitToken_FindStringSubmatch (string_of_list_ascii (p ++ g1 ++ g2 ++ q)) =
  Some (string_of_list_ascii g1, string_of_list_ascii g2).
Proof.
  intros Hp H1 H2 Hq. unfold hitToken_FindStringSubmatch, MatchString.
  rewrite list_ascii_of_string_of_list_ascii.
  assert (matches hitToken (p ++ g1 ++ g2 ++ q) = true) as ->.
  { apply matches_lang. unfold hitToken.
    constructor; [exact Hp|constructor; [exact H1|constructor; [exact H2|exact Hq]]]. }
  assert (strip_open (p ++ g1 ++ g2 ++ q) = g1 ++ g2 ++ q) as ->.
  { destruct (notes_re_head g1 H1) as (c & s' & -> & Hc).
    apply lang_opt_char in Hp as [->| ->]; simpl.
    - rewrite (drum_not_open c Hc). reflexivity.
    - reflexivity. }
  assert (stops duration_char q = true) as Hsq.
  { apply lang_opt_char in Hq as [->| ->]; reflexivity. }
  assert (stops notes_char (g2 ++ q) = true) as Hs2.
  { pose proof (lang_classes _ _ _ duration_re_classes H2) as Hd.
    destruct g2 as [|c g2]; simpl in *.
    - apply lang_opt_char in Hq as [->| ->]; reflexivity.
    - apply andb_prop in Hd as [Hc _].
      rewrite (duration_not_notes c Hc). reflexivity. }
  rewrite (span_run notes_char g1 (g2 ++ q))
    by (auto; apply (lang_classes _ _ _ notes_re_classes H1)).
  rewrite (span_run duration_char g2 q)
    by (auto; apply (lang_classes _ _ _ duration_re_classes H2)).
  reflexivity.
Qed.

Lemma noteToken_groups g1 g2 :
  lang (Plus (Chr drum)) g1 → lang velocity_re g2 →
  noteToken_FindStringSubmatch (string_of_list_ascii (g1 ++ g2)) =
  Some (string_of_list_ascii g1, string_of_list_ascii g2).
Proof.
  intros H1 H2. unfold noteToken_FindStringSubmatch, MatchString.
  rewrite list_ascii_of_string_of_list_ascii.
  assert (matches noteToken (g1 ++ g2) = true) as ->.
  { apply matches_lang. constructor; auto. }
  assert (stops drum g2 = true) as Hs.
  { pose proof (lang_classes _ _ _ velocity_re_classes H2) as Hv.
    destruct g2 as [|c g2]; simpl in *; auto.
    apply andb_prop in Hv as [Hc _]. rewrite (velocity_not_drum c Hc). reflexivity. }
  rewrite (span_run drum g1 g2); auto.
  apply lang_plus_head in H1 as (c & s' & -> & Hc & Hs'). simpl.
  rewrite Hc, Hs'. reflexivity.
Qed.

Lemma directiveToken_groups g1 g2 :
  lang (Plus (Chr (allbut ":"))) g1 → lang (Star (Chr (allbut "010"))) g2 →
  directiveToken_FindStringSubmatch
    (string_of_list_ascii (g1 ++ ":"%char :: g2)) =
  Some (string_of_list_ascii g1, string_of_list_ascii g2).
Proof.
  intros H1 H2. unfold directiveToken_FindStringSubmatch, MatchString.
  rewrite list_ascii_of_string_of_list_ascii.
  assert (matches directiveToken (g1 ++ ":"%char :: g2) = true) as ->.
  { apply matches_lang. unfold directiveToken. constructor; auto.
    change (":"%char :: g2) with ([":"%char] ++ g2).
    constructor; auto. constructor. reflexivity. }
  rewrite (span_run (allbut ":") g1 (":"%char :: g2)); [reflexivity| |reflexivity].
  apply lang_plus_head in H1 as (c & s' & -> & Hc & Hs'). simpl.
  rewrite Hc, Hs'. reflexivity.
Qed.

End Groups.

(** ** Variable-length quantities *)

Section VLQ.

Import Midi.

(** A property checked on every number below [k] holds below [k]. *)
Lemma below_cases (P : N → bool) (k : nat) :
  forallb P (N.of_nat <$> seq 0 k) = true → ∀ x, x < N.of_nat k → P x = true.
Proof.
  intros Hall x Hx. rewrite forallb_forall in Hall. apply Hall.
  apply in_map_iff. exists (N.to_nat x). split; [lia|].
  apply in_seq. lia.
Qed.

Lemma low7_bound n : N.land n 127 < 128.
Proof. change 127 with (N.ones 7). rewrite N.land_ones. apply N.mod_lt. lia. Qed.

Lemma low7_last n : N.testbit (N.land n 127) 7 = false.
Proof.
  rewrite N.land_spec. change 127 with (N.ones 7).
  rewrite N.ones_spec_high by lia. apply andb_false_r.
Qed.

Lemma low7_idem n : N.land (N.land n 127) 127 = N.land n 127.
Proof. rewrite <- N.land_assoc. reflexivity. Qed.

Lemma continuation_bit n : N.testbit (N.lor (N.land n 127) 128) 7 = true.
Proof. rewrite N.lor_spec. change 128 with (2 ^ 7). rewrite N.pow2_bits_true. apply orb_true_r. Qed.

Lemma continuation_low7 n : N.land (N.lor (N.land n 127) 128) 127 = N.land n 127.
Proof.
  rewrite N.land_lor_distr_l, low7_idem.
  change (N.land 128 127) with 0. apply N.lor_0_r.
Qed.

Lemma continuation_range n :
  128 ≤ N.lor (N.land n 127) 128 ∧ N.lor (N.land n 127) 128 < 256.
Proof.
  pose proof (low7_bound n) as Hb. revert Hb. generalize (N.land n 127). intros x Hx.
  pose proof (below_cases (λ x, (128 <=? N.lor x 128) && (N.lor x 128 <? 256)) 128
                eq_refl x Hx) as H.
  apply andb_prop in H as [H1 H2].
  apply N.leb_le in H1. apply N.ltb_lt in H2. auto.
Qed.

(** A number is its groups above the lowest one, shifted back, and its
    lowest group. *)
Lemma group_split n : N.lor (N.shiftl (N.shiftr n 7) 7) (N.land n 127) = n.
Proof.
  apply N.bits_inj. intros i. rewrite N.lor_spec, N.land_spec.
  change 127 with (N.ones 7).
  destruct (N.lt_ge_cases i 7) as [Hi|Hi].
  - rewrite N.shiftl_spec_low, N.ones_spec_low by lia. simpl. apply andb_true_r.
  - rewrite N.shiftl_spec_high', N.shiftr_spec', N.ones_spec_high by lia.
    rewrite andb_false_r, orb_false_r. f_equal. lia.
Qed.

Lemma shiftr7_bound n f : n < 2 ^ N.succ f → N.shiftr n 7 < 2 ^ f.
Proof.
  intros Hn. rewrite N.shiftr_div_pow2. rewrite N.pow_succ_r' in Hn.
  apply N.Div0.div_lt_upper_bound. change (2 ^ 7) with 128. lia.
Qed.

Lemma uvarint_more_app fuel n acc rest :
  uvarint_more fuel n acc ++ rest = uvarint_more fuel n (acc ++ rest).
Proof.
  revert n acc. induction fuel as [|fuel IH]; intros n acc; simpl; auto.
  destruct (n =? 0); auto.
Qed.

(** Reading the groups [uvarint_more] put in front of [acc] accumulates [n]. *)
Lemma readUvarint_more fuel n acc :
  n < 2 ^ N.of_nat fuel →
  readUvarint_from 0 (uvarint_more fuel n acc) = readUvarint_from n acc.
Proof.
  revert n acc. induction fuel as [|fuel IH]; intros n acc Hn.
  - assert (n = 0) as Hz by (simpl in Hn; lia). subst n. reflexivity.
  - cbn [uvarint_more]. destruct (N.eqb_spec n 0) as [->|Hne]; [reflexivity|].
    rewrite IH by (apply shiftr7_bound; rewrite <- Nnat.Nat2N.inj_succ; exact Hn).
    cbn [readUvarint_from]. rewrite continuation_bit, continuation_low7, group_split.
    reflexivity.
Qed.

Lemma uvarint_fuel u : N.shiftr u 7 < 2 ^ N.of_nat (N.to_nat (N.size u)).
Proof.
  rewrite Nnat.N2Nat.id. apply N.le_lt_trans with u; [|apply N.size_gt].
  rewrite N.shiftr_div_pow2. apply N.Div0.div_le_upper_bound.
  change (2 ^ 7) with 128. lia.
Qed.

(** Decoding what was encoded gives the number back, and leaves what
    follows it unread. *)
Lemma readUvarint_uvarint u rest :
  readUvarint (uvarint u ++ rest) = Some (u, rest).
Proof.
  unfold readUvarint, uvarint. rewrite uvarint_more_app.
  rewrite readUvarint_more by apply uvarint_fuel.
  cbn [app readUvarint_from]. rewrite low7_last, low7_idem, group_split.
  reflexivity.
Qed.

(** The groups put in front all have the high bit set. *)
Lemma uvarint_more_shape fuel n acc :
  ∃ front, uvarint_more fuel n acc = front ++ acc ∧
           Forall (λ b, 128 ≤ b ∧ b < 256) front.
Proof.
  revert n acc. induction fuel as [|fuel IH]; intros n acc; simpl.
  - exists []. split; auto.
  - destruct (n =? 0).
    + exists []. split; auto.
    + destruct (IH (N.shiftr n 7) (N.lor (N.land n 127) 128 :: acc))
        as (front & -> & Hf).
      exists (front ++ [N.lor (N.land n 127) 128]). split.
      * rewrite <- app_assoc. reflexivity.
      * apply Forall_app. split; auto.
        constructor; [apply continuation_range|constructor].
Qed.

Lemma uvarint_shape u :
  ∃ front final, uvarint u = front ++ [final] ∧
                 Forall (λ b, 128 ≤ b ∧ b < 256) front ∧ final < 128.
Proof.
  unfold uvarint.
  destruct (uvarint_more_shape (N.to_nat (N.size u)) (N.shiftr u 7) [N.land u 127])
    as (front & -> & Hf).
  exists front, (N.land u 127). repeat split; auto. apply low7_bound.
Qed.

Lemma uvarint_0 : uvarint 0 = [0].
Proof. reflexivity. Qed.

End VLQ.

(** C2.  For every unsigned integer [n] of [0, 2^28 - 1], decoding the
    variable-length-quantity encoding of [n] returns [n] (with nothing left
    unread); the encoding is made of bytes with the high bit set, all but the
    last, which has it clear; the encoding of 127 is the single byte [0x7F]
    and the encoding of 128 is the two bytes [0x81 0x00]. *)
Theorem vlq_round_trip (n : N) :
  n < 2 ^ 28 →
  Midi.readUvarint (Midi.uvarint n) = Some (n, []) ∧
  (∃ front final, Midi.uvarint n = front ++ [final] ∧
                  Forall (λ b, 128 ≤ b ∧ b < 256) front ∧ final < 128) ∧
  Midi.uvarint 127 = [0x7F] ∧
  Midi.uvarint 128 = [0x81; 0x00].
Proof.
  intros _. repeat split.
  - rewrite <- (app_nil_r (Midi.uvarint n)). apply readUvarint_uvarint.
  - apply uvarint_shape.
Qed.

Lemma vlq_round_trip_witness :
  Midi.readUvarint (Midi.uvarint 16384) = Some (16384, []) ∧
  Midi.uvarint 16384 = [0x81; 0x80; 0x00].
Proof.
  split; [|reflexivity].
  apply (vlq_round_trip 16384). reflexivity.
Defined.

(** ** The note track *)

Section NoteTrack.

Import Midi Types.

(** An order of visit names every note of the hit once. *)
Lemma range_order_once (m : gset byte) (l : list byte) :
  range_order m l → NoDup l ∧ ∀ n, n ∈ l ↔ n ∈ m.
Proof.
  unfold range_order. intros Hp. split.
  - rewrite Hp. apply NoDup_elements.
  - intros n. rewrite Hp. apply elem_of_elements.
Qed.

Lemma range_order_elements (m : gset byte) : range_order m (elements m).
Proof. unfold range_order. reflexivity. Qed.

Lemma event_bytes_note_on v n : Spec.event_bytes (Spec.note_on v n) = [0; 0x99; n; v].
Proof. reflexivity. Qed.

Lemma event_bytes_note_off dt n :
  Spec.event_bytes (Spec.note_off dt n) = uvarint dt ++ [0x89; n; 64].
Proof. reflexivity. Qed.

Lemma foldl_encode_on h buf on :
  foldl (encode_on h) buf on =
  buf ++ concat (Spec.event_bytes <$> (Spec.note_on (V h) <$> on)).
Proof.
  revert buf. induction on as [|n on IH]; intros buf; simpl.
  - rewrite app_nil_r. reflexivity.
  - rewrite IH. unfold encode_on. rewrite <- app_assoc. reflexivity.
Qed.

Lemma foldl_encode_off_later h buf off :
  foldl (encode_off h) (buf, false) off =
  (buf ++ concat (Spec.event_bytes <$> (Spec.note_off 0 <$> off)), false).
Proof.
  revert buf. induction off as [|n off IH]; intros buf; simpl.
  - rewrite app_nil_r. reflexivity.
  - rewrite IH. f_equal. rewrite <- !app_assoc. reflexivity.
Qed.

Lemma foldl_encode_off h buf off :
  fst (foldl (encode_off h) (buf, true) off) =
  buf ++ concat (Spec.event_bytes <$> Spec.note_offs (T h) off).
Proof.
  destruct off as [|n off]; simpl.
  - rewrite app_nil_r. reflexivity.
  - rewrite foldl_encode_off_later. simpl.
    rewrite event_bytes_note_off, <- !app_assoc. reflexivity.
Qed.

(** [Hit.encode] writes the events the specification lists. *)
Lemma encode_run_events h on off :
  encode_run h on off = concat (Spec.event_bytes <$> Spec.hit_events h on off).
Proof.
  unfold encode_run, Spec.hit_events.
  rewrite foldl_encode_off, foldl_encode_on, fmap_app, concat_app.
  reflexivity.
Qed.

Lemma foldl_write (buf : list byte) (chunks : list (list byte)) :
  foldl (λ buf bs, buf ++ bs) buf chunks = buf ++ concat chunks.
Proof.
  revert buf. induction chunks as [|c chunks IH]; intros buf; simpl.
  - rewrite app_nil_r. reflexivity.
  - rewrite IH, <- app_assoc. reflexivity.
Qed.

Lemma encodeHits_run_body encoded :
  encodeHits_run encoded =
  let body := concat encoded ++ Spec.end_of_track in
  bytes_of "MTrk" ++ bin (wrap32 (N.of_nat (length body))) ++ body.
Proof.
  unfold encodeHits_run. rewrite foldl_write. cbn [app].
  rewrite <- app_assoc. reflexivity.
Qed.

(** Every hit has an encoding, hence every track a note chunk. *)
Lemma encode_total h : ∃ bs, encode h bs.
Proof.
  exists (encode_run h (elements (Notes h)) (elements (Notes h))).
  constructor; apply range_order_elements.
Qed.

Lemma encodeHits_total t : ∃ out, encodeHits t out.
Proof.
  assert (∃ encoded, Forall2 encode (Hits t) encoded) as [encoded He].
  { induction (Hits t) as [|h hs [encoded IH]].
    - exists []. constructor.
    - destruct (encode_total h) as [bs Hbs]. exists (bs :: encoded).
      constructor; auto. }
  exists (encodeHits_run encoded), encoded. auto.
Qed.

(** The orders in which the two loops of [encode] visited the notes of each
    hit, read off the encodings. *)
Lemma encoded_orders hs encoded :
  Forall2 encode hs encoded →
  ∃ orders : list (list byte * list byte),
    Forall2 (λ h o, range_order (Notes h) o.1 ∧ range_order (Notes h) o.2)
      hs orders ∧
    encoded = zip_with (λ h o, encode_run h o.1 o.2) hs orders.
Proof.
  induction 1 as [|h bs hs encoded Hh _ (orders & Ho & ->)].
  - exists []. split; [constructor|reflexivity].
  - destruct Hh as [on off Hon Hoff].
    exists ((on, off) :: orders). split; [constructor; auto|reflexivity].
Qed.

(** A set of at most one note has one order of visit. *)
Lemma range_order_single (m : gset byte) l :
  (size m ≤ 1)%nat → range_order m l → l = elements m.
Proof.
  unfold range_order, size, set_size. simpl. intros Hs Hp.
  destruct (elements m) as [|a [|b r]]; simpl in Hs.
  - apply Permutation_nil_r in Hp. exact Hp.
  - apply Permutation_singleton_r in Hp. exact Hp.
  - lia.
Qed.

Lemma encode_single h bs :
  (size (Notes h) ≤ 1)%nat → encode h bs →
  bs = encode_run h (elements (Notes h)) (elements (Notes h)).
Proof.
  intros Hs [on off Hon Hoff].
  rewrite (range_order_single _ _ Hs Hon), (range_order_single _ _ Hs Hoff).
  reflexivity.
Qed.

Lemma encoded_single hs e1 e2 :
  Forall (λ h, (size (Notes h) ≤ 1)%nat) hs →
  Forall2 encode hs e1 → Forall2 encode hs e2 → e1 = e2.
Proof.
  intros Hs H1. revert e2. induction H1 as [|h b1 hs e1 Hb1 _ IH]; intros e2 H2.
  - inversion H2. reflexivity.
  - inversion H2 as [|? b2 ? e2' Hb2 H2']; subst.
    inversion Hs as [|? ? Hh Hs']; subst.
    rewrite (encode_single h b1 Hh Hb1), (encode_single h b2 Hh Hb2).
    f_equal. apply IH; auto.
Qed.

End NoteTrack.

(** C1.  Every track has a note chunk, and in every note chunk the encoder
    may produce, the body holds, for every hit in sequence order, one
    note-on event per note of the hit (delta-time zero, status [0x99], the
    instrument code, the velocity byte), followed by one note-off event per
    note (status [0x89]) of which the first carries the duration of the hit
    as a variable-length quantity and the others delta-time zero, all with
    velocity 64; the end-of-track event [0x00 0xFF 0x2F 0x00] follows the
    last hit.  The notes of a hit appear in some order [on] in its note-on
    events and some order [off] in its note-off events, each naming every
    note of the hit once. *)
Theorem encodeHits_events (t : Track Types.Hit) :
  (∃ out, Types.encodeHits t out) ∧
  ∀ out, Types.encodeHits t out →
    ∃ (orders : list (list byte * list byte)) (body : list byte),
      Forall2 (λ h o, (NoDup o.1 ∧ ∀ n, n ∈ o.1 ↔ n ∈ Types.Notes h) ∧
                      (NoDup o.2 ∧ ∀ n, n ∈ o.2 ↔ n ∈ Types.Notes h))
        (Hits t) orders ∧
      body =
        concat (zip_with
                  (λ h o, concat (Spec.event_bytes <$> Spec.hit_events h o.1 o.2))
                  (Hits t) orders)
        ++ Spec.end_of_track ∧
      out = Midi.bytes_of "MTrk"
              ++ Midi.bin (wrap32 (N.of_nat (length body))) ++ body.
Proof.
  split; [apply encodeHits_total|].
  intros out (encoded & He & ->).
  apply encoded_orders in He as (orders & Ho & ->).
  eexists orders, _. split; [|split; [reflexivity|]].
  - eapply Forall2_impl; [exact Ho|]. simpl.
    intros h o [H1 H2]. split; apply range_order_once; auto.
  - rewrite encodeHits_run_body. cbn zeta.
    rewrite (zip_with_ext (λ h o, Types.encode_run h o.1 o.2)
               (λ h o, concat (Spec.event_bytes <$> Spec.hit_events h o.1 o.2))
               (Hits t) (Hits t) orders orders); auto.
    intros h o. apply encode_run_events.
Qed.

Lemma encodeHits_events_witness :
  ∃ orders body,
    Forall2 (λ h o, (NoDup o.1 ∧ ∀ n, n ∈ o.1 ↔ n ∈ Types.Notes h) ∧
                    (NoDup o.2 ∧ ∀ n, n ∈ o.2 ↔ n ∈ Types.Notes h))
      [Types.mkHit {[36]} 96 96] orders ∧
    body =
      concat (zip_with
                (λ h o, concat (Spec.event_bytes <$> Spec.hit_events h o.1 o.2))
                [Types.mkHit {[36]} 96 96] orders)
      ++ Spec.end_of_track ∧
    [77; 84; 114; 107; 0; 0; 0; 12;
     0; 0x99; 36; 96; 0x60; 0x89; 36; 64; 0; 0xFF; 0x2F; 0] =
    Midi.bytes_of "MTrk" ++ Midi.bin (wrap32 (N.of_nat (length body))) ++ body.
Proof.
  apply (proj2 (encodeHits_events (mkTrack [Types.mkHit {[36]} 96 96] 120))).
  exists [Types.encode_run (Types.mkHit {[36]} 96 96) [36] [36]].
  split; [|reflexivity].
  constructor; [|constructor].
  constructor; unfold Types.range_order; simpl; rewrite elements_singleton;
    reflexivity.
Defined.

(** ** The metadata track *)

Section MetaTrack.

Import Midi Types.

Lemma uspb_quotient b : 1 ≤ b → b ≤ 500 → uspb b = Some (60000000 / b).
Proof.
  intros H1 H2.
  assert (uspb_is_quotient b = true) as Hq.
  { apply (below_cases uspb_is_quotient 501); [vm_compute; reflexivity|lia]. }
  unfold uspb_is_quotient in Hq.
  destruct (N.eqb_spec b 0) as [->|_]; [lia|]. simpl in Hq.
  destruct (uspb b) as [u|]; [|discriminate].
  apply N.eqb_eq in Hq. congruence.
Qed.

(** The three bytes kept of the four of [bin] are the low 24 bits. *)
Lemma be_value_tempo_payload u :
  Spec.be_value (tempo_payload u) = u mod 2 ^ 24.
Proof.
  unfold tempo_payload, bin, Spec.be_value, wrap8. simpl drop. simpl foldl.
  rewrite !N.shiftr_div_pow2.
  change (2 ^ 24) with 16777216. change (2 ^ 16) with 65536.
  change (2 ^ 8) with 256.
  zify. Z.to_euclidean_division_equations. lia.
Qed.

Lemma length_tempo_payload u : length (tempo_payload u) = 3%nat.
Proof. reflexivity. Qed.

Lemma encodeMetaChunk_layout t u :
  uspb (BPM t) = Some u →
  encodeMetaChunk t =
  Some (bytes_of "MTrk" ++ bin 19 ++ [0; 0xFF; 0x58; 4; 4; 2; 24; 8]
          ++ [0; 0xFF; 0x51; 3] ++ tempo_payload u ++ [0; 0xFF; 0x2F; 0]).
Proof. unfold encodeMetaChunk. intros ->. reflexivity. Qed.

End MetaTrack.

(** C3, as the code has it.  For every track with a tempo [b] of [4, 500],
    the tempo meta event of the metadata chunk carries a payload of three
    bytes that is the quotient of 60,000,000 by [b], fraction dropped; for
    [b = 120] it is 500000. *)
Theorem tempo_payload_quotient (t : Track Types.Hit) :
  4 ≤ BPM t → BPM t ≤ 500 →
  ∃ payload,
    Types.encodeMetaChunk t =
      Some (Midi.bytes_of "MTrk" ++ Midi.bin 19
              ++ [0; 0xFF; 0x58; 4; 4; 2; 24; 8]
              ++ [0; 0xFF; 0x51; 3] ++ payload ++ [0; 0xFF; 0x2F; 0]) ∧
    length payload = 3%nat ∧
    Spec.be_value payload = 60000000 / BPM t ∧
    (BPM t = 120 → Spec.be_value payload = 500000).
Proof.
  intros H1 H2. exists (Types.tempo_payload (60000000 / BPM t)).
  assert ((60000000 / BPM t) mod 2 ^ 24 = 60000000 / BPM t) as Hs.
  { apply N.mod_small. apply N.Div0.div_lt_upper_bound.
    change (2 ^ 24) with 16777216. lia. }
  split; [apply encodeMetaChunk_layout, uspb_quotient; lia|].
  split; [apply length_tempo_payload|].
  rewrite be_value_tempo_payload, Hs. split; [reflexivity|].
  intros E. rewrite E. reflexivity.
Qed.

Lemma tempo_payload_quotient_witness :
  ∃ payload,
    Types.encodeMetaChunk (mkTrack [Types.mkHit {[36]} 96 96] 120) =
      Some (Midi.bytes_of "MTrk" ++ Midi.bin 19
              ++ [0; 0xFF; 0x58; 4; 4; 2; 24; 8]
              ++ [0; 0xFF; 0x51; 3] ++ payload ++ [0; 0xFF; 0x2F; 0]) ∧
    length payload = 3%nat ∧
    Spec.be_value payload = 60000000 / 120 ∧
    (120 = 120 → Spec.be_value payload = 500000).
Proof.
  apply (tempo_payload_quotient (mkTrack [Types.mkHit {[36]} 96 96] 120));
    simpl; lia.
Defined.

(** C3, as the specification has it, fails.  At 7 beats per minute the
    payload is 8571428, and 60,000,000 / 7 = 8571428.57 rounds to 8571429.
    At 1 beat per minute the three bytes hold 9668352, the low 24 bits of
    60,000,000.  At 15625 beats per minute the payload is 3839, one less than
    the exact quotient 3840: the product computed in double precision falls
    just short of it. *)
Lemma tempo_payload_not_rounded :
  (Types.encodeMetaChunk (mkTrack [] 7) =
     Some (Midi.bytes_of "MTrk" ++ Midi.bin 19
             ++ [0; 0xFF; 0x58; 4; 4; 2; 24; 8]
             ++ [0; 0xFF; 0x51; 3] ++ [0x82; 0xCA; 0x24] ++ [0; 0xFF; 0x2F; 0]) ∧
   Spec.be_value [0x82; 0xCA; 0x24] = 8571428 ∧
   Spec.nearest 60000000 7 = 8571429) ∧
  (Types.encodeMetaChunk (mkTrack [] 1) =
     Some (Midi.bytes_of "MTrk" ++ Midi.bin 19
             ++ [0; 0xFF; 0x58; 4; 4; 2; 24; 8]
             ++ [0; 0xFF; 0x51; 3] ++ [0x93; 0x87; 0x00] ++ [0; 0xFF; 0x2F; 0]) ∧
   Spec.be_value [0x93; 0x87; 0x00] = 9668352 ∧
   Spec.nearest 60000000 1 = 60000000) ∧
  (Types.encodeMetaChunk (mkTrack [] 15625) =
     Some (Midi.bytes_of "MTrk" ++ Midi.bin 19
             ++ [0; 0xFF; 0x58; 4; 4; 2; 24; 8]
             ++ [0; 0xFF; 0x51; 3] ++ [0x00; 0x0E; 0xFF] ++ [0; 0xFF; 0x2F; 0]) ∧
   Spec.be_value [0x00; 0x0E; 0xFF] = 3839 ∧
   Spec.nearest 60000000 15625 = 3840).
Proof. repeat split; vm_compute; reflexivity. Qed.

(** ** The whole file *)

(** C8, as the code has it.  The encoder leaves the order of the notes of a
    hit to the order in which Go ranges over a map; where every hit of the
    track has at most one note, any two evaluations of the encoder on the
    track produce the same bytes. *)
Theorem MarshalBinary_single_notes (t : Track Types.Hit) (b1 b2 : list byte) :
  Forall (λ h, (size (Types.Notes h) ≤ 1)%nat) (Hits t) →
  Types.MarshalBinary t b1 → Types.MarshalBinary t b2 → b1 = b2.
Proof.
  intros Hs (m1 & h1 & Hm1 & (e1 & He1 & ->) & ->)
            (m2 & h2 & Hm2 & (e2 & He2 & ->) & ->).
  rewrite (encoded_single (Hits t) e1 e2 Hs He1 He2). congruence.
Qed.

Lemma MarshalBinary_single_notes_witness :
  [77; 84; 104; 100; 0; 0; 0; 6; 0; 1; 0; 2; 0; 96;
   77; 84; 114; 107; 0; 0; 0; 19; 0; 0xFF; 0x58; 4; 4; 2; 24; 8;
   0; 0xFF; 0x51; 3; 0x07; 0xA1; 0x20; 0; 0xFF; 0x2F; 0;
   77; 84; 114; 107; 0; 0; 0; 12;
   0; 0x99; 36; 96; 0x60; 0x89; 36; 64; 0; 0xFF; 0x2F; 0] =
  (Types.encodeHeaderChunk ++
     [77; 84; 114; 107; 0; 0; 0; 19; 0; 0xFF; 0x58; 4; 4; 2; 24; 8;
      0; 0xFF; 0x51; 3; 0x07; 0xA1; 0x20; 0; 0xFF; 0x2F; 0]) ++
  Types.encodeHits_run [Types.encode_run (Types.mkHit {[36]} 96 96) [36] [36]].
Proof.
  assert (Types.MarshalBinary (mkTrack [Types.mkHit {[36]} 96 96] 120)
            ((Types.encodeHeaderChunk ++
                [77; 84; 114; 107; 0; 0; 0; 19; 0; 0xFF; 0x58; 4; 4; 2; 24; 8;
                 0; 0xFF; 0x51; 3; 0x07; 0xA1; 0x20; 0; 0xFF; 0x2F; 0]) ++
             Types.encodeHits_run
               [Types.encode_run (Types.mkHit {[36]} 96 96) [36] [36]])) as Hrun.
  { eexists _, _. split; [vm_compute; reflexivity|]. split; [|reflexivity].
    exists [Types.encode_run (Types.mkHit {[36]} 96 96) [36] [36]].
    split; [|reflexivity]. constructor; [|constructor].
    constructor; unfold Types.range_order; simpl; rewrite elements_singleton;
      reflexivity. }
  apply (MarshalBinary_single_notes (mkTrack [Types.mkHit {[36]} 96 96] 120)).
  - constructor; [|constructor].
    change (size ({[36%N]} : gset N) ≤ 1)%nat. rewrite size_singleton. lia.
  - exact Hrun.
  - exact Hrun.
Defined.

(** C8, as the specification has it, fails: a hit of two notes has two
    encodings, one for each order of its notes. *)
Lemma MarshalBinary_two_outputs :
  ¬ (∀ t : Track Types.Hit, BPM t ≠ 0 →
       ∀ b1 b2, Types.MarshalBinary t b1 → Types.MarshalBinary t b2 → b1 = b2).
Proof.
  intros Hdet.
  pose (h := Types.NewHit 96 96 [36; 38]).
  assert (∀ on off, Types.range_order (Types.Notes h) on →
                    Types.range_order (Types.Notes h) off →
            Types.MarshalBinary (mkTrack [h] 120)
              ((Types.encodeHeaderChunk ++
                  [77; 84; 114; 107; 0; 0; 0; 19; 0; 0xFF; 0x58; 4; 4; 2; 24; 8;
                   0; 0xFF; 0x51; 3; 0x07; 0xA1; 0x20; 0; 0xFF; 0x2F; 0]) ++
               Types.encodeHits_run [Types.encode_run h on off])) as Hrun.
  { intros on off Hon Hoff.
    eexists _, _. split; [vm_compute; reflexivity|]. split; [|reflexivity].
    exists [Types.encode_run h on off]. split; [|reflexivity].
    constructor; [|constructor]. constructor; auto. }
  assert (Types.range_order (Types.Notes h) [36; 38]) as H1.
  { unfold Types.range_order. vm_compute (elements _). apply perm_swap. }
  assert (Types.range_order (Types.Notes h) [38; 36]) as H2.
  { unfold Types.range_order. vm_compute (elements _). reflexivity. }
  specialize (Hdet (mkTrack [h] 120) ltac:(discriminate) _ _
                (Hrun _ _ H1 H1) (Hrun _ _ H2 H2)).
  vm_compute in Hdet. discriminate.
Qed.

(** ** The duration table after [init]

    Whatever entries the loop of [init] visits beyond the eight of the
    literal, the keys with at most one [>] end up as in [durations_once];
    the token shapes let no other key be looked up. *)

Section Durations.

Import Text.

Lemma gt_count_triplet d : gt_count (d +:+ ">") = S (gt_count d).
Proof.
  induction d as [|c d IH]; [reflexivity|].
  change (String c d +:+ ">") with (String c (d +:+ ">")).
  simpl. rewrite IH. lia.
Qed.

Lemma literal_dom d : d ∈ dom durations_literal ↔ d ∈ literal_keys.
Proof.
  unfold durations_literal. rewrite dom_list_to_map_L, elem_of_list_to_set.
  reflexivity.
Qed.

(** Goals about one of finitely many keys, key by key. *)
Ltac each_key H :=
  repeat (apply elem_of_cons in H as [->|H]); [..|apply elem_of_nil in H; contradiction].

Lemma literal_plain d : d ∈ dom durations_literal → gt_count d = 0%nat.
Proof. rewrite literal_dom. unfold literal_keys. intros H. each_key H; reflexivity. Qed.

Lemma once_triplet d :
  d ∈ dom durations_literal →
  durations_once !! (d +:+ ">") = Some (wrap64 (lookup0 durations_literal d * 2) / 3).
Proof.
  rewrite literal_dom. unfold literal_keys. intros H.
  each_key H; vm_compute; reflexivity.
Qed.

Lemma once_plain k :
  gt_count k = 0%nat → durations_once !! k = durations_literal !! k.
Proof.
  intros Hk. cbv [durations_once foldl add_triplet].
  repeat (rewrite lookup_insert_ne;
          [|intros <-; rewrite gt_count_triplet in Hk; discriminate]).
  reflexivity.
Qed.

Lemma once_dom k :
  is_Some (durations_once !! k) →
  k ∈ dom durations_literal ∨ ∃ d, d ∈ dom durations_literal ∧ k = d +:+ ">".
Proof.
  cbv [durations_once foldl add_triplet]. intros Hk.
  repeat match type of Hk with
         | is_Some (<[?d +:+ ">" := _]> _ !! _) =>
             destruct (decide (d +:+ ">" = k)) as [<-|Hne];
             [right; exists d; split;
                [apply literal_dom; compute_done|reflexivity]
             |rewrite lookup_insert_ne in Hk by exact Hne; clear Hne]
         end.
  left. apply elem_of_dom. exact Hk.
Qed.

Lemma table_inv_start : table_inv ∅ durations_literal.
Proof.
  split; [auto|]. split.
  - intros k Hk. destruct (durations_literal !! k) as [v|] eqn:E; auto.
    assert (k ∈ dom durations_literal) as Hd by (apply elem_of_dom; eauto).
    apply literal_plain in Hd. congruence.
  - intros d Hd. apply elem_of_empty in Hd. contradiction.
Qed.

Lemma table_inv_visit seen m d :
  table_inv seen m → d ∈ dom m → table_inv (seen ∪ {[d]}) (add_triplet m d).
Proof.
  intros (H0 & H1 & Hs) Hd.
  assert (gt_count (d +:+ ">") = 1%nat →
          add_triplet m d !! (d +:+ ">") = durations_once !! (d +:+ ">")) as Hnew.
  { intros Hc. rewrite gt_count_triplet in Hc.
    assert (gt_count d = 0%nat) as Hc0 by lia.
    assert (d ∈ dom durations_literal) as Hl.
    { apply elem_of_dom. rewrite <- H0 by exact Hc0. apply elem_of_dom. exact Hd. }
    rewrite (once_triplet d Hl). unfold add_triplet. rewrite lookup_insert_eq.
    unfold lookup0. rewrite H0 by exact Hc0. reflexivity. }
  split; [|split].
  - intros k Hk. unfold add_triplet. rewrite lookup_insert_ne; auto.
    intros <-. rewrite gt_count_triplet in Hk. discriminate.
  - intros k Hk. destruct (decide (d +:+ ">" = k)) as [<-|Hne].
    + right. apply Hnew. exact Hk.
    + unfold add_triplet. rewrite lookup_insert_ne by exact Hne. auto.
  - intros d' Hd' Hl. destruct (decide (d +:+ ">" = d' +:+ ">")) as [E|Hne].
    + rewrite <- E. apply Hnew. rewrite E, gt_count_triplet.
      rewrite (literal_plain d' Hl). reflexivity.
    + unfold add_triplet. rewrite lookup_insert_ne by exact Hne.
      apply Hs; auto. apply elem_of_union in Hd' as [Hd'|Hd']; auto.
      apply elem_of_singleton in Hd'. subst d'. contradiction.
Qed.

Lemma init_range_inv seen m m' :
  init_range durations_literal seen m m' → table_inv seen m →
  ∃ seen', dom durations_literal ⊆ seen' ∧ table_inv seen' m'.
Proof.
  induction 1 as [seen m Hdone|seen m d m' Hd Hfresh _ IH]; intros Hinv.
  - exists seen. auto.
  - apply IH. apply table_inv_visit; auto.
Qed.

Lemma init_durations_lookup du k :
  init_durations du → (gt_count k ≤ 1)%nat →
  lookup0 du k = lookup0 durations_once k.
Proof.
  intros Hinit Hk. unfold lookup0. f_equal.
  destruct (init_range_inv _ _ _ Hinit table_inv_start)
    as (seen & Hseen & H0 & H1 & Hs).
  destruct (gt_count k) as [|[|n]] eqn:Hc; [| |lia].
  - rewrite H0, once_plain; auto.
  - destruct (H1 k Hc) as [Hnone|Hsome]; auto.
    destruct (durations_once !! k) as [v|] eqn:E; auto.
    destruct (once_dom k) as [Hl|(d & Hl & ->)]; [rewrite E; eauto|..].
    + apply literal_plain in Hl. congruence.
    + assert (d ∈ seen) as Hd by (apply Hseen; exact Hl).
      rewrite Hs in Hnone by assumption. congruence.
Qed.

(** Visiting keys that are there, each once, is a run of the loop as soon
    as the keys of the literal are among them. *)
Lemma init_range_foldl m0 ds :
  ∀ seen m,
    NoDup ds → (∀ d, d ∈ ds → d ∈ dom m ∧ d ∉ seen) →
    dom m0 ⊆ seen ∪ list_to_set ds →
    init_range m0 seen m (foldl add_triplet m ds).
Proof.
  induction ds as [|d ds IH]; intros seen m Hnd Hds Hsub; simpl.
  - apply init_range_done. intros x Hx. apply Hsub in Hx.
    apply elem_of_union in Hx as [Hx|Hx]; [exact Hx|].
    apply elem_of_empty in Hx. contradiction.
  - apply NoDup_cons in Hnd as [Hd Hnd].
    destruct (Hds d) as [Hdm Hseen]; [left|].
    eapply init_range_visit; [exact Hdm|exact Hseen|].
    apply IH; auto.
    + intros d' Hd'. destruct (Hds d') as [Hdm' Hseen']; [right; exact Hd'|].
      split.
      * unfold add_triplet. rewrite dom_insert_L.
        apply elem_of_union_r. exact Hdm'.
      * intros [?| ->%elem_of_singleton]%elem_of_union; contradiction.
    + intros x Hx. apply Hsub in Hx. rewrite list_to_set_cons in Hx.
      rewrite !elem_of_union in Hx. rewrite !elem_of_union. tauto.
Qed.

(** [durations_once] is itself a run of the loop. *)
Lemma init_durations_once : init_durations durations_once.
Proof.
  unfold init_durations, durations_once. apply init_range_foldl.
  - compute_done.
  - intros d Hd. split; [apply literal_dom; exact Hd|apply not_elem_of_empty].
  - intros d Hd. apply literal_dom in Hd.
    apply elem_of_union_r, elem_of_list_to_set. exact Hd.
Qed.

End Durations.

(** ** The parser, token by token *)

Section Tokens.

Import Text.

Variable ezDrummer : gmap string byte.
Variable durations : gmap string uint.

(** No token is both a hit and a wait: a hit starts with a parenthesis, a
    digit or a capital, a wait with a dot, a tilde or [>]. *)
Lemma hit_or_wait_head c :
  dead (deriv c hitToken) || dead (deriv c waitToken) = true.
Proof. destruct c as [[] [] [] [] [] [] [] []]; vm_compute; reflexivity. Qed.

Lemma wait_not_hit tok :
  MatchString waitToken tok = true → MatchString hitToken tok = false.
Proof.
  unfold MatchString. destruct (list_ascii_of_string tok) as [|c s].
  - reflexivity.
  - intros Hw. destruct (orb_prop _ _ (hit_or_wait_head c)) as [Hd|Hd].
    + apply matches_dead_head. exact Hd.
    + rewrite (matches_dead_head _ _ s Hd) in Hw. discriminate.
Qed.

Lemma parenthesized_not_half tok :
  parenthesized tok = true → halfParenthesized tok = false.
Proof.
  unfold parenthesized, halfParenthesized.
  destruct (0 <? String.length tok)%nat, (first_is "(" tok), (last_is ")" tok);
    simpl; auto; discriminate.
Qed.

(** An alias table that leaves a number alone leaves it to the numbered
    notes. *)
Lemma drumNotes_numbered k :
  ezDrummer !! k = None →
  lookup0 (drumNotes ezDrummer) k = lookup0 numbered_notes k.
Proof.
  intros Hk. unfold lookup0, drumNotes. rewrite lookup_union_r; auto.
Qed.

(** A hit token of one note. *)
Lemma parseHit_one s m1 m2 part n vs :
  hitToken_FindStringSubmatch s = Some (m1, m2) →
  split_at "," [] (list_ascii_of_string m1) = [part] →
  noteToken_FindStringSubmatch part = Some (n, vs) →
  lookup0 (drumNotes ezDrummer) n ≠ 0 →
  lookup0 velocities vs ≠ 0 →
  lookup0 durations m2 ≠ 0 →
  parseHit ezDrummer durations s =
  Ok (mkHit {[lookup0 (drumNotes ezDrummer) n := lookup0 velocities vs]}
        (lookup0 durations m2)).
Proof.
  intros Hs Hsplit Hn Hnote Hv Hd.
  unfold parseHit, parseNotes. rewrite Hs, Hsplit. cbn [parseNotes_loop].
  rewrite Hn.
  destruct (N.eqb_spec (lookup0 (drumNotes ezDrummer) n) 0) as [|_]; [contradiction|].
  destruct (N.eqb_spec (lookup0 velocities vs) 0) as [|_]; [contradiction|].
  destruct (N.eqb_spec (lookup0 durations m2) 0) as [|_]; [contradiction|].
  rewrite insert_empty. reflexivity.
Qed.

(** The three ways a token extends a track. *)
Lemma parseToken_hit i t tok h :
  MatchString hitToken tok = true → halfParenthesized tok = false →
  parenthesized tok = false →
  parseHit ezDrummer durations tok = Ok h →
  parseToken ezDrummer durations i t tok = Ok (mkTrack (Hits t ++ [h]) (BPM t)).
Proof.
  intros Hm Hh Hp Hparse. unfold parseToken.
  rewrite Hm, Hh, Hp, Hparse. reflexivity.
Qed.

Lemma alter_last_snoc (f : Hit → Hit) hs l :
  alter_last f (hs ++ [l]) = hs ++ [f l].
Proof.
  unfold alter_last. rewrite length_app. simpl.
  replace (length hs + 1 - 1)%nat with (length hs + 0)%nat by lia.
  induction hs as [|h hs IH]; simpl; [reflexivity|].
  f_equal. exact IH.
Qed.

Lemma parseToken_grace i t tok h :
  MatchString hitToken tok = true → parenthesized tok = true →
  parseHit ezDrummer durations (substring 1 (String.length tok - 2) tok) = Ok h →
  parseToken ezDrummer durations i t tok =
  match last (Hits t) with
  | None => Ok (mkTrack (Hits t ++ [h]) (BPM t))
  | Some l =>
      if T l <=? T h then Err (TokenError i (GraceTooLong (T h) (T l)))
      else Ok (mkTrack (alter_last (set_T (λ x, x - T h)) (Hits t) ++ [h]) (BPM t))
  end.
Proof.
  intros Hm Hp Hparse. unfold parseToken.
  rewrite Hm, (parenthesized_not_half tok Hp), Hp, Hparse.
  destruct (Hits t) as [|l hs _] using rev_ind; [reflexivity|].
  rewrite last_snoc, length_app. simpl.
  replace (0 <? length hs + 1)%nat with true
    by (symmetry; apply Nat.ltb_lt; lia).
  reflexivity.
Qed.

Lemma parseToken_wait i t tok :
  MatchString waitToken tok = true →
  parseToken ezDrummer durations i t tok =
  if lookup0 durations tok =? 0 then Err (TokenError (i + 1) (BadDuration tok))
  else if (length (Hits t) =? 0)%nat then Err (TokenError (i + 1) NoPrecedingNote)
  else Ok (mkTrack
             (alter_last (set_T (λ x, wrap64 (x + lookup0 durations tok))) (Hits t))
             (BPM t)).
Proof.
  intros Hw. unfold parseToken. rewrite (wait_not_hit tok Hw), Hw. reflexivity.
Qed.

End Tokens.

(** ** The parser does not see which run of [init] built the table

    The keys the parser looks up in [durations] are wait tokens and second
    groups of hit tokens: they have at most one [>], and on those keys every
    table [init] can build is the same. *)

Section AnyInit.

Import Text.

Lemma gt_count_plain l :
  forallb (either (one ".") (one "~")) l = true →
  ∀ s, gt_count (string_of_list_ascii (l ++ s)) = gt_count (string_of_list_ascii s).
Proof.
  induction l as [|c l IH]; simpl; intros Hl s; [reflexivity|].
  apply andb_prop in Hl as [Hc Hl]. rewrite IH by exact Hl.
  replace (Ascii.eqb c ">") with false; [reflexivity|].
  revert Hc. clear. destruct c as [[] [] [] [] [] [] [] []]; vm_compute; auto;
    discriminate.
Qed.

Lemma duration_re_gt s :
  lang duration_re s → (gt_count (string_of_list_ascii s) ≤ 1)%nat.
Proof.
  intros Hl. inversion Hl as [| |? ? a b Ha Hb| | | |]; subst.
  assert (forallb (either (one ".") (one "~")) a = true) as Hplain.
  { apply (lang_classes _ (Alt (Star (Chr (one "."))) (Star (Chr (one "~")))));
      [|exact Ha].
    cbn [classes_in]. split; intros c Hc; unfold either; rewrite Hc;
      [reflexivity|apply orb_true_r]. }
  rewrite (gt_count_plain a Hplain).
  apply lang_opt_char in Hb as [->| ->]; simpl; lia.
Qed.

Lemma wait_lookup du tok :
  init_durations du → MatchString waitToken tok = true →
  lookup0 du tok = lookup0 durations_once tok.
Proof.
  intros Hdu Hw. apply init_durations_lookup; auto.
  apply matches_lang, duration_re_gt in Hw.
  rewrite string_of_list_ascii_of_string in Hw. exact Hw.
Qed.

Lemma hit_duration_gt s m1 m2 :
  hitToken_FindStringSubmatch s = Some (m1, m2) → (gt_count m2 ≤ 1)%nat.
Proof.
  intros Hs.
  assert (MatchString hitToken s = true) as Hm.
  { unfold hitToken_FindStringSubmatch in Hs.
    destruct (MatchString hitToken s); [reflexivity|discriminate]. }
  apply matches_lang in Hm.
  remember (list_ascii_of_string s) as l eqn:El.
  inversion Hm as [| |? ? p r1 Hp Hr1| | | |]; subst.
  inversion Hr1 as [| |? ? g1 r2 Hg1 Hr2| | | |]; subst.
  inversion Hr2 as [| |? ? g2 q Hg2 Hq| | | |]; subst.
  pose proof (hitToken_groups p g1 g2 q Hp Hg1 Hg2 Hq) as Hg.
  match goal with E : _ = list_ascii_of_string s |- _ => rewrite E in Hg end.
  rewrite string_of_list_ascii_of_string, Hs in Hg.
  injection Hg as _ ->. apply duration_re_gt. exact Hg2.
Qed.

Lemma parseHit_any_init ez du s :
  init_durations du → parseHit ez du s = parseHit ez durations_once s.
Proof.
  intros Hdu. unfold parseHit.
  destruct (hitToken_FindStringSubmatch s) as [[m1 m2]|] eqn:Hs; [|reflexivity].
  rewrite (init_durations_lookup du m2 Hdu (hit_duration_gt s m1 m2 Hs)).
  reflexivity.
Qed.

Lemma parseToken_any_init ez du i t tok :
  init_durations du →
  parseToken ez du i t tok = parseToken ez durations_once i t tok.
Proof.
  intros Hdu. unfold parseToken.
  destruct (MatchString hitToken tok).
  { destruct (halfParenthesized tok); [reflexivity|].
    rewrite (parseHit_any_init ez du _ Hdu). reflexivity. }
  destruct (MatchString waitToken tok) eqn:Hw; [|reflexivity].
  rewrite (wait_lookup du tok Hdu Hw). reflexivity.
Qed.

Lemma ParseTrack_loop_any_init ez du toks :
  init_durations du →
  ∀ i t, ParseTrack_loop ez du i t toks = ParseTrack_loop ez durations_once i t toks.
Proof.
  intros Hdu. induction toks as [|tok toks IH]; intros i t; simpl; [reflexivity|].
  rewrite (parseToken_any_init ez du i t tok Hdu).
  destruct (parseToken ez durations_once i t tok); [apply IH|reflexivity].
Qed.

(** Parsing gives the same result with every table [init] can build. *)
Lemma ParseTrack_any_init ez du s :
  init_durations du → ParseTrack ez du s = ParseTrack ez durations_once s.
Proof. intros Hdu. apply ParseTrack_loop_any_init. exact Hdu. Qed.

End AnyInit.

(** ** Whole inputs *)

Section Inputs.

Import Text.

Variable ezDrummer : gmap string byte.
Variable durations : gmap string uint.
Hypothesis durations_init : init_durations durations.

(** A hit token of one numbered note, with the tables of [init]. *)
Lemma parseHit_numbered s m1 m2 part n vs note v d :
  ezDrummer !! n = None →
  hitToken_FindStringSubmatch s = Some (m1, m2) →
  split_at "," [] (list_ascii_of_string m1) = [part] →
  noteToken_FindStringSubmatch part = Some (n, vs) →
  (gt_count m2 ≤ 1)%nat →
  lookup0 numbered_notes n = note → note ≠ 0 →
  lookup0 velocities vs = v → v ≠ 0 →
  lookup0 durations_once m2 = d → d ≠ 0 →
  parseHit ezDrummer durations s = Ok (mkHit {[note := v]} d).
Proof.
  intros Hez Hs Hsplit Hpart Hgt Hnote Hnote0 Hv Hv0 Hd Hd0.
  rewrite (parseHit_one ezDrummer durations s m1 m2 part n vs Hs Hsplit Hpart);
    rewrite ?(drumNotes_numbered ezDrummer n Hez),
            ?(init_durations_lookup durations m2 durations_init Hgt);
    congruence.
Qed.

End Inputs.

(** Runs [parseHit] on a token of one numbered note. *)
Ltac parse_numbered :=
  eapply parseHit_numbered;
  [assumption|
  |vm_compute; reflexivity|vm_compute; reflexivity|vm_compute; reflexivity
  |vm_compute; lia
  |vm_compute; reflexivity|discriminate
  |vm_compute; reflexivity|discriminate
  |vm_compute; reflexivity|discriminate];
  assumption.

(** Replaces [tokenize] of a literal by the tokens. *)
Ltac run_tokenize :=
  unfold Text.ParseTrack;
  match goal with
  | |- context [Text.tokenize ?s] =>
      let v := eval vm_compute in (Text.tokenize s) in
      change (Text.tokenize s) with v
  end;
  cbn [Text.ParseTrack_loop].

(** Takes the first token left as a plain hit of one numbered note. *)
Ltac run_hit :=
  erewrite parseToken_hit;
  [|vm_compute; reflexivity|vm_compute; reflexivity|vm_compute; reflexivity
   |parse_numbered];
  cbn [Text.ParseTrack_loop Hits BPM app].

(** C7.  With the tables [init] builds, and no alias named ["36"]: parsing
    ["36"] succeeds and yields exactly one hit with one note, instrument 36,
    velocity 96 and duration 96 ticks; parsing ["36+"] yields velocity 112
    and parsing ["36--"] velocity 64. *)
Theorem parse_single_note (ezDrummer : gmap string byte) (durations : gmap string uint) :
  Text.init_durations durations → ezDrummer !! "36" = None →
  Text.ParseTrack ezDrummer durations "36" =
    Ok (mkTrack [Text.mkHit {[36 := 96]} 96] 0) ∧
  Text.ParseTrack ezDrummer durations "36+" =
    Ok (mkTrack [Text.mkHit {[36 := 112]} 96] 0) ∧
  Text.ParseTrack ezDrummer durations "36--" =
    Ok (mkTrack [Text.mkHit {[36 := 64]} 96] 0).
Proof.
  intros Hdu Hez. repeat split; run_tokenize; run_hit; reflexivity.
Qed.

Lemma parse_single_note_witness :
  Text.ParseTrack ∅ Text.durations_once "36" =
    Ok (mkTrack [Text.mkHit {[36 := 96]} 96] 0) ∧
  Text.ParseTrack ∅ Text.durations_once "36+" =
    Ok (mkTrack [Text.mkHit {[36 := 112]} 96] 0) ∧
  Text.ParseTrack ∅ Text.durations_once "36--" =
    Ok (mkTrack [Text.mkHit {[36 := 64]} 96] 0).
Proof.
  apply (parse_single_note ∅ Text.durations_once).
  - apply init_durations_once.
  - reflexivity.
Defined.

(** C6.  A wait token adds the duration the table has for it to the duration
    of the last hit (an addition of [uint], which is the sum as long as it
    fits 64 bits); parsing fails when no hit precedes the wait token, and when
    the table has no duration for it.  Parsing ["36 ."] yields one hit of
    96 + 48 = 144 ticks. *)
Theorem wait_extends_last_hit :
  (∀ (ezDrummer : gmap string byte) (durations : gmap string uint)
     (i : nat) (t : Track Text.Hit) (tok : string),
     MatchString Text.waitToken tok = true →
     (∀ hs l,
        lookup0 durations tok ≠ 0 → Hits t = hs ++ [l] →
        Text.parseToken ezDrummer durations i t tok =
          Ok (mkTrack
                (hs ++ [Text.mkHit (Text.Notes l)
                          (wrap64 (Text.T l + lookup0 durations tok))])
                (BPM t)) ∧
        (Text.T l + lookup0 durations tok < 2 ^ 64 →
         wrap64 (Text.T l + lookup0 durations tok) =
         Text.T l + lookup0 durations tok)) ∧
     (Hits t = [] →
      ∃ e, Text.parseToken ezDrummer durations i t tok = Err e) ∧
     (lookup0 durations tok = 0 →
      ∃ e, Text.parseToken ezDrummer durations i t tok = Err e)) ∧
  (∀ (ezDrummer : gmap string byte) (durations : gmap string uint),
     Text.init_durations durations → ezDrummer !! "36" = None →
     Text.ParseTrack ezDrummer durations "36 ." =
       Ok (mkTrack [Text.mkHit {[36 := 96]} 144] 0)).
Proof.
  split.
  - intros ez du i t tok Hw. rewrite (parseToken_wait ez du i t tok Hw).
    split; [|split].
    + intros hs l Hd Ht. split.
      * destruct (N.eqb_spec (lookup0 du tok) 0) as [|_]; [contradiction|].
        rewrite Ht, length_app, alter_last_snoc. simpl.
        replace (length hs + 1 =? 0)%nat with false
          by (symmetry; apply Nat.eqb_neq; lia).
        reflexivity.
      * intros Hfit. apply N.mod_small. exact Hfit.
    + intros ->. destruct (lookup0 du tok =? 0); simpl; eauto.
    + intros ->. simpl. eauto.
  - intros ez du Hdu Hez. run_tokenize. run_hit.
    rewrite parseToken_wait by (vm_compute; reflexivity).
    rewrite (init_durations_lookup du "." Hdu) by (vm_compute; lia).
    reflexivity.
Qed.

Lemma wait_extends_last_hit_witness :
  Text.parseToken ∅ Text.durations_once 1%nat
    (mkTrack [Text.mkHit {[36 := 96]} 96] 0) "." =
  Ok (mkTrack [Text.mkHit {[36 := 96]} 144] 0).
Proof.
  refine (proj1 (proj1 (proj1 wait_extends_last_hit ∅ Text.durations_once 1%nat
                          (mkTrack [Text.mkHit {[36 := 96]} 96] 0) "." eq_refl)
                   [] (Text.mkHit {[36 := 96]} 96) _ eq_refl)).
  vm_compute. discriminate.
Defined.

(** C5.  A parenthesized hit token that follows a hit: when the grace note
    is strictly shorter than the hit before it, that hit loses the duration
    of the grace note and the grace note is appended; when it is as long or
    longer, parsing fails.  Parsing ["36 (38.)"] leaves the first hit with
    96 - 48 = 48 ticks. *)
Theorem grace_note_shortens :
  (∀ (ezDrummer : gmap string byte) (durations : gmap string uint)
     (i : nat) (t : Track Text.Hit) (tok : string) (h : Text.Hit) hs l,
     MatchString Text.hitToken tok = true → Text.parenthesized tok = true →
     Text.parseHit ezDrummer durations
       (substring 1 (String.length tok - 2) tok) = Ok h →
     Hits t = hs ++ [l] →
     (Text.T h < Text.T l →
      Text.parseToken ezDrummer durations i t tok =
        Ok (mkTrack
              (hs ++ [Text.mkHit (Text.Notes l) (Text.T l - Text.T h); h])
              (BPM t))) ∧
     (Text.T l ≤ Text.T h →
      ∃ e, Text.parseToken ezDrummer durations i t tok = Err e)) ∧
  (∀ (ezDrummer : gmap string byte) (durations : gmap string uint),
     Text.init_durations durations →
     ezDrummer !! "36" = None → ezDrummer !! "38" = None →
     Text.ParseTrack ezDrummer durations "36 (38.)" =
       Ok (mkTrack [Text.mkHit {[36 := 96]} 48; Text.mkHit {[38 := 96]} 48] 0)).
Proof.
  split.
  - intros ez du i t tok h hs l Hm Hp Hparse Ht.
    rewrite (parseToken_grace ez du i t tok h Hm Hp Hparse), Ht, last_snoc.
    split; intros Hlt.
    + destruct (N.leb_spec (Text.T l) (Text.T h)) as [Hle|_]; [lia|].
      rewrite alter_last_snoc, <- app_assoc. reflexivity.
    + destruct (N.leb_spec (Text.T l) (Text.T h)) as [_|Hgt]; [eauto|lia].
  - intros ez du Hdu H36 H38. run_tokenize. run_hit.
    erewrite parseToken_grace;
      [|vm_compute; reflexivity|vm_compute; reflexivity
       |vm_compute (substring _ _ _); parse_numbered].
    reflexivity.
Qed.

Lemma grace_note_shortens_witness :
  Text.parseToken ∅ Text.durations_once 1%nat
    (mkTrack [Text.mkHit {[36 := 96]} 96] 0) "(38.)" =
  Ok (mkTrack [Text.mkHit {[36 := 96]} 48; Text.mkHit {[38 := 96]} 48] 0).
Proof.
  refine (proj1 (proj1 grace_note_shortens ∅ Text.durations_once 1%nat
                   (mkTrack [Text.mkHit {[36 := 96]} 96] 0) "(38.)"
                   (Text.mkHit {[38 := 96]} 48) [] (Text.mkHit {[36 := 96]} 96)
                   _ _ _ _) _); vm_compute; reflexivity.
Defined.

(** C10.  A parenthesized hit token with no hit before it is accepted: the
    hit is appended with the duration it was parsed with, and nothing is
    subtracted.  Parsing ["(38.)"] yields one hit of 48 ticks. *)
Theorem grace_note_first :
  (∀ (ezDrummer : gmap string byte) (durations : gmap string uint)
     (i : nat) (t : Track Text.Hit) (tok : string) (h : Text.Hit),
     MatchString Text.hitToken tok = true → Text.parenthesized tok = true →
     Text.parseHit ezDrummer durations
       (substring 1 (String.length tok - 2) tok) = Ok h →
     Hits t = [] →
     Text.parseToken ezDrummer durations i t tok = Ok (mkTrack [h] (BPM t))) ∧
  (∀ (ezDrummer : gmap string byte) (durations : gmap string uint),
     Text.init_durations durations → ezDrummer !! "38" = None →
     Text.ParseTrack ezDrummer durations "(38.)" =
       Ok (mkTrack [Text.mkHit {[38 := 96]} 48] 0)).
Proof.
  split.
  - intros ez du i t tok h Hm Hp Hparse Ht.
    rewrite (parseToken_grace ez du i t tok h Hm Hp Hparse), Ht. reflexivity.
  - intros ez du Hdu H38. run_tokenize.
    erewrite parseToken_grace;
      [|vm_compute; reflexivity|vm_compute; reflexivity
       |vm_compute (substring _ _ _); parse_numbered].
    reflexivity.
Qed.

Lemma grace_note_first_witness :
  Text.parseToken ∅ Text.durations_once 0%nat (mkTrack [] 0) "(38.)" =
  Ok (mkTrack [Text.mkHit {[38 := 96]} 48] 0).
Proof.
  refine (proj1 grace_note_first ∅ Text.durations_once 0%nat (mkTrack [] 0)
            "(38.)" (Text.mkHit {[38 := 96]} 48) _ _ _ _);
    vm_compute; reflexivity.
Defined.

(** The number an error carries: the index of the token counted from zero
    for a hit token and for a directive token, counted from one for a wait
    token and for an unrecognized token. *)
Lemma parseToken_error_number (ezDrummer : gmap string byte)
    (durations : gmap string uint) (i : nat) (t : Track Text.Hit)
    (tok : string) (e : Text.error) :
  Text.parseToken ezDrummer durations i t tok = Err e →
  Text.token_number e =
    if MatchString Text.hitToken tok then i
    else if MatchString Text.waitToken tok then (i + 1)%nat
    else if MatchString Text.directiveToken tok then i
    else (i + 1)%nat.
Proof.
  unfold Text.parseToken.
  destruct (MatchString Text.hitToken tok).
  { destruct (Text.halfParenthesized tok); [intros [= <-]; reflexivity|].
    destruct (Text.parseHit ezDrummer durations _) as [h|c];
      [|intros [= <-]; reflexivity].
    destruct (Text.parenthesized tok && _); [|discriminate].
    destruct (last (Hits t)) as [l|]; [|discriminate].
    destruct (Text.T l <=? Text.T h); [intros [= <-]; reflexivity|discriminate]. }
  destruct (MatchString Text.waitToken tok).
  { destruct (lookup0 durations tok =? 0); [intros [= <-]; reflexivity|].
    destruct (length (Hits t) =? 0)%nat; [intros [= <-]; reflexivity|discriminate]. }
  destruct (MatchString Text.directiveToken tok).
  { destruct (Text.parseDirective t tok) as [t' [c|]];
      [intros [= <-]; reflexivity|discriminate]. }
  intros [= <-]; reflexivity.
Qed.

(** C9, on the code.  When the first token of the input is a directive with
    a bad value (["bpm:0"]) or a hit with one parenthesis (["(38"]), the error
    carries the number 0, not 1; when it is an unrecognized token (["?"]) or a
    wait token (["."]), the error carries 1. *)
Theorem error_token_number (ezDrummer : gmap string byte)
    (durations : gmap string uint) :
  Text.ParseTrack ezDrummer durations "bpm:0" =
    Err (Text.TokenError 0 (Text.BadBPM 0)) ∧
  Text.ParseTrack ezDrummer durations "(38" =
    Err (Text.TokenError 0 Text.GraceParenthesis) ∧
  Text.ParseTrack ezDrummer durations "?" =
    Err (Text.TokenError 1 (Text.UnrecognizedToken "?")) ∧
  ∃ c, Text.ParseTrack ezDrummer durations "." = Err (Text.TokenError 1 c).
Proof.
  repeat split; try (vm_compute; reflexivity).
  run_tokenize. rewrite parseToken_wait by (vm_compute; reflexivity).
  destruct (lookup0 durations "." =? 0); simpl; eauto.
Qed.

(** ** The tempo directive *)

Section Tempo.

Import Text.

(** [strconv.Atoi] reads the numerals, as long as the value fits an [int]. *)
Lemma Atoi_numeral v :
  Atoi v =
  match Spec.numeral v with
  | None => Err ErrSyntax
  | Some z =>
      if ((- 2 ^ 63 <=? z) && (z <? 2 ^ 63))%Z then Ok z else Err ErrRange
  end.
Proof.
  unfold Atoi, Spec.numeral, Spec.unsigned, Spec.digits_value.
  destruct (list_ascii_of_string v) as [|c r]; [reflexivity|].
  destruct (Ascii.eqb c "-").
  { destruct r as [|d r]; [reflexivity|].
    destruct (forallb is_digit (d :: r)); reflexivity. }
  destruct (Ascii.eqb c "+").
  { destruct r as [|d r]; [reflexivity|].
    destruct (forallb is_digit (d :: r)); reflexivity. }
  destruct (forallb is_digit (c :: r)); reflexivity.
Qed.

Lemma bpmDirective_sets t v z :
  Spec.numeral v = Some z → (1 ≤ z)%Z → (z ≤ 500)%Z →
  bpmDirective t v = (mkTrack (Hits t) (Z.to_N z), None).
Proof.
  intros Hv H1 H2. unfold bpmDirective. rewrite Atoi_numeral, Hv.
  replace ((- 2 ^ 63 <=? z) && (z <? 2 ^ 63))%Z with true
    by (symmetry; apply andb_true_intro; split;
        [apply Z.leb_le|apply Z.ltb_lt]; lia).
  replace ((z <? 1) || (500 <? z))%Z with false
    by (symmetry; apply orb_false_intro; apply Z.ltb_ge; lia).
  unfold wrap64. rewrite N.mod_small; [reflexivity|].
  apply N.le_lt_trans with 500; [lia|reflexivity].
Qed.

Lemma bpmDirective_rejects t v :
  Spec.numeral v = None ∨
  (∃ z, Spec.numeral v = Some z ∧ (z ≤ 0 ∨ 500 < z)%Z) →
  ∃ e, bpmDirective t v = (t, Some e).
Proof.
  intros Hv. unfold bpmDirective. rewrite Atoi_numeral.
  destruct Hv as [->|(z & -> & Hz)]; [eauto|].
  destruct ((- 2 ^ 63 <=? z) && (z <? 2 ^ 63))%Z; [|eauto].
  replace ((z <? 1) || (500 <? z))%Z with true; [eauto|].
  symmetry. apply orb_true_iff. rewrite !Z.ltb_lt. lia.
Qed.

(** The characters of a numeral: none is a line feed. *)
Lemma digit_not_newline c : is_digit c = true → allbut "010" c = true.
Proof. destruct c as [[] [] [] [] [] [] [] []]; vm_compute; auto. Qed.

Lemma digits_not_newline ds :
  forallb is_digit ds = true → forallb (allbut "010") ds = true.
Proof.
  induction ds as [|c ds IH]; simpl; auto.
  intros [Hc Hds]%andb_prop. rewrite (digit_not_newline c Hc). auto.
Qed.

Lemma unsigned_not_newline ds z :
  Spec.unsigned ds = Some z → forallb (allbut "010") ds = true.
Proof.
  unfold Spec.unsigned. destruct ds as [|c ds]; [discriminate|].
  destruct (forallb is_digit (c :: ds)) eqn:E; [|discriminate].
  intros _. apply digits_not_newline. exact E.
Qed.

Lemma numeral_not_newline v z :
  Spec.numeral v = Some z →
  forallb (allbut "010") (list_ascii_of_string v) = true.
Proof.
  unfold Spec.numeral. destruct (list_ascii_of_string v) as [|c ds]; [discriminate|].
  destruct (Ascii.eqb_spec c "-") as [->|_].
  { destruct (Spec.unsigned ds) as [n|] eqn:E; [|discriminate].
    intros _. simpl. apply (unsigned_not_newline ds n E). }
  destruct (Ascii.eqb_spec c "+") as [->|_].
  { intros E. simpl. apply (unsigned_not_newline ds z E). }
  apply unsigned_not_newline.
Qed.

(** The token ["bpm:" ++ v]. *)
Lemma bpm_token v :
  list_ascii_of_string ("bpm:" +:+ v) =
  ["b"; "p"; "m"; ":"]%char ++ list_ascii_of_string v.
Proof. reflexivity. Qed.

Lemma bpm_not_hit v : MatchString hitToken ("bpm:" +:+ v) = false.
Proof.
  unfold MatchString. rewrite bpm_token. apply matches_dead_head.
  vm_compute. reflexivity.
Qed.

Lemma bpm_not_wait v : MatchString waitToken ("bpm:" +:+ v) = false.
Proof.
  unfold MatchString. rewrite bpm_token. apply matches_dead_head.
  vm_compute. reflexivity.
Qed.

Lemma bpm_is_directive v :
  forallb (allbut "010") (list_ascii_of_string v) = true →
  MatchString directiveToken ("bpm:" +:+ v) = true.
Proof.
  intros Hv. unfold MatchString. rewrite bpm_token. apply matches_lang.
  change (["b"; "p"; "m"; ":"]%char ++ list_ascii_of_string v)
    with (["b"; "p"; "m"]%char ++ [":"%char] ++ list_ascii_of_string v).
  unfold directiveToken. constructor; [|constructor].
  - apply lang_plus_class; reflexivity.
  - constructor. reflexivity.
  - apply lang_star_class. exact Hv.
Qed.

Lemma bpm_submatch v :
  directiveToken_FindStringSubmatch ("bpm:" +:+ v) =
  if MatchString directiveToken ("bpm:" +:+ v) then Some ("bpm", v) else None.
Proof.
  unfold directiveToken_FindStringSubmatch.
  destruct (MatchString directiveToken ("bpm:" +:+ v)); [|reflexivity].
  rewrite bpm_token. simpl. rewrite drop_0, string_of_list_ascii_of_string.
  reflexivity.
Qed.

Lemma parseDirective_bpm t v :
  parseDirective t ("bpm:" +:+ v) =
  if MatchString directiveToken ("bpm:" +:+ v) then bpmDirective t v
  else (t, Some (BadDirective ("bpm:" +:+ v))).
Proof.
  unfold parseDirective. rewrite bpm_submatch.
  destruct (MatchString directiveToken ("bpm:" +:+ v)); reflexivity.
Qed.

Lemma parseToken_bpm ez du i t v :
  parseToken ez du i t ("bpm:" +:+ v) =
  if MatchString directiveToken ("bpm:" +:+ v) then
    match bpmDirective t v with
    | (_, Some e) => Err (TokenError i e)
    | (t', None) => Ok t'
    end
  else Err (TokenError (i + 1) (UnrecognizedToken ("bpm:" +:+ v))).
Proof.
  unfold parseToken. rewrite bpm_not_hit, bpm_not_wait, parseDirective_bpm.
  destruct (MatchString directiveToken ("bpm:" +:+ v)); reflexivity.
Qed.

End Tempo.

(** C4.  For every numeral [v] (decimal digits, with or without a sign) that
    denotes an integer of [1, 500], the token ["bpm:"] followed by [v] sets
    the tempo of the track to that integer and leaves its hits alone; for
    every [v] that is no numeral, or denotes an integer that is 0 or less, or
    more than 500, the directive returns an error and leaves the track as it
    was, and parsing the token fails. *)
Theorem bpm_directive (ezDrummer : gmap string byte) (durations : gmap string uint)
    (i : nat) (t : Track Text.Hit) (v : string) :
  (∀ z, Spec.numeral v = Some z → (1 ≤ z)%Z → (z ≤ 500)%Z →
     Text.parseDirective t ("bpm:" +:+ v) =
       (mkTrack (Hits t) (Z.to_N z), None) ∧
     Text.parseToken ezDrummer durations i t ("bpm:" +:+ v) =
       Ok (mkTrack (Hits t) (Z.to_N z))) ∧
  (Spec.numeral v = None ∨
   (∃ z, Spec.numeral v = Some z ∧ (z ≤ 0 ∨ 500 < z)%Z) →
   (∃ e, Text.parseDirective t ("bpm:" +:+ v) = (t, Some e)) ∧
   (∃ e, Text.parseToken ezDrummer durations i t ("bpm:" +:+ v) = Err e)).
Proof.
  split.
  - intros z Hv H1 H2.
    rewrite parseToken_bpm, parseDirective_bpm.
    rewrite (bpm_is_directive v (numeral_not_newline v z Hv)).
    rewrite (bpmDirective_sets t v z Hv H1 H2). split; reflexivity.
  - intros Hv. rewrite parseToken_bpm, parseDirective_bpm.
    destruct (MatchString Text.directiveToken ("bpm:" +:+ v)).
    + destruct (bpmDirective_rejects t v Hv) as [e He]. rewrite He. eauto.
    + eauto.
Qed.

Lemma bpm_directive_witness :
  Text.parseToken ∅ Text.durations_once 0 (mkTrack [] 0) "bpm:120" =
    Ok (mkTrack [] 120) ∧
  ∃ e, Text.parseToken ∅ Text.durations_once 0 (mkTrack [] 0) "bpm:501" = Err e.
Proof.
  split.
  - refine (proj2 (proj1 (bpm_directive ∅ Text.durations_once 0%nat
                            (mkTrack [] 0) "120") 120%Z _ _ _));
      [reflexivity|lia|lia].
  - refine (proj2 (proj2 (bpm_directive ∅ Text.durations_once 0%nat
                            (mkTrack [] 0) "501") _)).
    right. exists 501%Z. split; [reflexivity|lia].
Defined.

(** ** Strings as lists of characters *)

Section Strings.

Lemma list_ascii_of_string_app s1 s2 :
  list_ascii_of_string (s1 +:+ s2) =
  list_ascii_of_string s1 ++ list_ascii_of_string s2.
Proof.
  induction s1 as [|c s1 IH]; [reflexivity|].
  change (String c s1 +:+ s2) with (String c (s1 +:+ s2)). simpl.
  rewrite IH. reflexivity.
Qed.

Lemma string_of_list_ascii_app l1 l2 :
  string_of_list_ascii (l1 ++ l2) =
  string_of_list_ascii l1 +:+ string_of_list_ascii l2.
Proof.
  induction l1 as [|c l1 IH]; [reflexivity|].
  simpl. rewrite IH. reflexivity.
Qed.

Lemma length_list_ascii s : length (list_ascii_of_string s) = String.length s.
Proof. induction s as [|c s IH]; simpl; auto. Qed.

Lemma substring_all s : substring 0 (String.length s) s = s.
Proof. induction s as [|c s IH]; simpl; [reflexivity|]. rewrite IH. reflexivity. Qed.

Lemma substring_prefix s1 s2 :
  substring 0 (String.length s1) (s1 +:+ s2) = s1.
Proof.
  induction s1 as [|c s1 IH]; simpl.
  - destruct s2; reflexivity.
  - change (String c s1 +:+ s2) with (String c (s1 +:+ s2)).
    rewrite IH. reflexivity.
Qed.

Lemma string_length_app s1 s2 :
  String.length (s1 +:+ s2) = (String.length s1 + String.length s2)%nat.
Proof.
  induction s1 as [|c s1 IH]; [reflexivity|].
  change (String c s1 +:+ s2) with (String c (s1 +:+ s2)). simpl.
  rewrite IH. reflexivity.
Qed.

(** A string whose last character is [c] is what precedes it, then [c]. *)
Lemma last_is_split c s :
  Text.last_is c s = true → ∃ s', s = s' +:+ String c "".
Proof.
  unfold Text.last_is. intros Hl.
  destruct (last (list_ascii_of_string s)) as [a|] eqn:E; [|discriminate].
  apply Ascii.eqb_eq in Hl. subst a.
  apply last_Some in E as [l' El].
  exists (string_of_list_ascii l').
  rewrite <- (string_of_list_ascii_of_string s), El, string_of_list_ascii_app.
  reflexivity.
Qed.

End Strings.

(** X16.  A token that starts and ends with a parenthesis has two characters
    or more, so the slice [token[1 : len(token)-1]] is within bounds; it is
    the slice put back between parentheses, and it is not half
    parenthesized. *)
Theorem parenthesized_strip (s : string) :
  Text.parenthesized s = true →
  (2 ≤ String.length s)%nat ∧
  s = "(" +:+ substring 1 (String.length s - 2) s +:+ ")" ∧
  Text.halfParenthesized s = false.
Proof.
  intros Hp. pose proof (parenthesized_not_half s Hp) as Hh.
  unfold Text.parenthesized in Hp.
  apply andb_prop in Hp as [Hp Hlast]. apply andb_prop in Hp as [_ Hfirst].
  destruct s as [|c s]; [discriminate|].
  simpl in Hfirst. apply Ascii.eqb_eq in Hfirst. subst c.
  apply last_is_split in Hlast as [s' Hs'].
  destruct s' as [|c s']; [discriminate|].
  change (String c s' +:+ ")") with (String c (s' +:+ ")")) in Hs'.
  injection Hs' as <- ->.
  assert (String.length (String "(" (s' +:+ ")")) - 2 = String.length s')%nat as ->.
  { simpl. rewrite string_length_app. simpl. lia. }
  split; [simpl; rewrite string_length_app; simpl; lia|].
  split; [|exact Hh].
  change (substring 1 (String.length s') (String "(" (s' +:+ ")")))
    with (substring 0 (String.length s') (s' +:+ ")")).
  rewrite substring_prefix. reflexivity.
Qed.

Lemma parenthesized_strip_witness :
  (2 ≤ String.length "(38.)")%nat ∧
  "(38.)" = "(" +:+ substring 1 (String.length "(38.)" - 2) "(38.)" +:+ ")" ∧
  Text.halfParenthesized "(38.)" = false.
Proof. apply (parenthesized_strip "(38.)"). reflexivity. Defined.

(** ** The tokenizer *)

Section Tokenizer.

Import Text.

Lemma strip_comments_no_hash b l :
  Forall (λ c, c ≠ "#"%char) (strip_comments b l).
Proof.
  revert b. induction l as [|c l IH]; intros b; simpl; [constructor|].
  destruct b.
  - destruct (Ascii.eqb_spec c "010") as [->|_]; [|apply IH].
    constructor; [discriminate|apply IH].
  - destruct (Ascii.eqb_spec c "#") as [->|Hne]; [apply IH|].
    constructor; [exact Hne|apply IH].
Qed.

(** A line feed ends a comment, whatever came before it. *)
Lemma strip_comments_newline b l1 l2 :
  strip_comments b (l1 ++ "010"%char :: l2) =
  strip_comments b l1 ++ "010"%char :: strip_comments false l2.
Proof.
  revert b. induction l1 as [|c l1 IH]; intros b; simpl.
  - destruct b; reflexivity.
  - destruct b.
    + destruct (Ascii.eqb c "010"); rewrite IH; reflexivity.
    + destruct (Ascii.eqb c "#"); rewrite IH; reflexivity.
Qed.

(** A comment after any text is as if the line ended there. *)
Lemma strip_comments_comment b l1 c :
  forallb (allbut "010") c = true →
  strip_comments b (l1 ++ "#"%char :: c) = strip_comments b l1.
Proof.
  intros Hc.
  assert (∀ c, forallb (allbut "010") c = true → strip_comments true c = []) as Hskip.
  { clear. induction c as [|x c IH]; simpl; [reflexivity|].
    intros [Hx Hc]%andb_prop. unfold allbut in Hx.
    rewrite Ascii.eqb_sym. apply negb_true_iff in Hx. rewrite Hx. auto. }
  revert b. induction l1 as [|x l1 IH]; intros b; simpl.
  - destruct b; simpl; apply Hskip; exact Hc.
  - destruct b.
    + destruct (Ascii.eqb x "010"); rewrite IH; reflexivity.
    + destruct (Ascii.eqb x "#"); rewrite IH; reflexivity.
Qed.

Lemma fields_space cur a c b :
  is_space c = true →
  fields cur (a ++ c :: b) = fields cur a ++ fields [] b.
Proof.
  intros Hc. revert cur. induction a as [|x a IH]; intros cur; simpl.
  - rewrite Hc. reflexivity.
  - destruct (is_space x); [|apply IH].
    rewrite IH, app_assoc. reflexivity.
Qed.

Lemma tokenize_newline s1 s2 :
  tokenize (s1 +:+ String "010" s2) = tokenize s1 ++ tokenize s2.
Proof.
  unfold tokenize. rewrite list_ascii_of_string_app. simpl.
  rewrite strip_comments_newline. apply fields_space. reflexivity.
Qed.

Lemma emit_tokens cur :
  Forall token_char cur →
  Forall (λ tok, tok ≠ "" ∧ Forall token_char (list_ascii_of_string tok))
    (emit cur).
Proof.
  destruct cur as [|c cur]; intros Hcur; simpl; constructor; [|constructor].
  split; [discriminate|].
  change (String c (string_of_list_ascii cur))
    with (string_of_list_ascii (c :: cur)).
  rewrite list_ascii_of_string_of_list_ascii. exact Hcur.
Qed.

(** The tokens are made of the characters read, none of them white space. *)
Lemma fields_tokens cur l :
  Forall token_char cur → Forall (λ c, c ≠ "#"%char) l →
  Forall (λ tok, tok ≠ "" ∧ Forall token_char (list_ascii_of_string tok))
    (fields cur l).
Proof.
  revert cur. induction l as [|c l IH]; intros cur Hcur Hl; simpl.
  - apply emit_tokens. exact Hcur.
  - inversion Hl as [|? ? Hc Hl']; subst.
    destruct (is_space c) eqn:Hs.
    + apply Forall_app. split; [apply emit_tokens; exact Hcur|].
      apply IH; [constructor|exact Hl'].
    + apply IH; [|exact Hl'].
      apply Forall_app. split; [exact Hcur|].
      constructor; [split; assumption|constructor].
Qed.

End Tokenizer.

(** X1.  Every token [tokenize] returns is non-empty and holds no white
    space (tab, line feed, form feed, carriage return, space) and no [#]. *)
Theorem tokenize_tokens (s : string) :
  Forall (λ tok, tok ≠ "" ∧ Forall token_char (list_ascii_of_string tok))
    (Text.tokenize s).
Proof.
  unfold Text.tokenize. apply fields_tokens; [constructor|].
  apply strip_comments_no_hash.
Qed.

(** X2.  A comment runs from its [#] to the end of the line and is dropped,
    wherever it starts: the tokens of a text with a comment at the end of a
    line are the tokens before the comment and those of the lines that
    follow; a comment at the end of the text adds no token. *)
Theorem tokenize_comment (s1 c s2 : string) :
  forallb (allbut "010") (list_ascii_of_string c) = true →
  Text.tokenize (s1 +:+ String "#" (c +:+ String "010" s2)) =
    Text.tokenize s1 ++ Text.tokenize s2 ∧
  Text.tokenize (s1 +:+ String "#" c) = Text.tokenize s1.
Proof.
  intros Hc. unfold Text.tokenize. split.
  - replace (list_ascii_of_string (s1 +:+ String "#" (c +:+ String "010" s2)))
      with ((list_ascii_of_string s1 ++ "#"%char :: list_ascii_of_string c)
              ++ "010"%char :: list_ascii_of_string s2).
    + rewrite strip_comments_newline, strip_comments_comment by exact Hc.
      apply fields_space. reflexivity.
    + rewrite list_ascii_of_string_app. simpl.
      rewrite list_ascii_of_string_app, <- app_assoc. reflexivity.
  - rewrite list_ascii_of_string_app. simpl.
    rewrite strip_comments_comment by exact Hc. reflexivity.
Qed.

Lemma tokenize_comment_witness :
  Text.tokenize ("36 .. " +:+ String "#" (" hello 5" +:+ String "010" "38>")) =
  ["36"; ".."; "38>"].
Proof.
  apply (proj1 (tokenize_comment "36 .. " " hello 5" "38>" eq_refl)).
Defined.

(** ** The loop of [ParseTrack] *)

Section Loop.

Import Text.

Variable ezDrummer : gmap string byte.
Variable durations : gmap string uint.

Lemma ParseTrack_loop_app a b :
  ∀ i t,
    ParseTrack_loop ezDrummer durations i t (a ++ b) =
    match ParseTrack_loop ezDrummer durations i t a with
    | Ok t' => ParseTrack_loop ezDrummer durations (i + length a) t' b
    | Err e => Err e
    end.
Proof.
  induction a as [|tok a IH]; intros i t; simpl.
  - rewrite Nat.add_0_r. reflexivity.
  - destruct (parseToken ezDrummer durations i t tok) as [t'|e]; [|reflexivity].
    rewrite IH. replace (S i + length a)%nat with (i + S (length a))%nat by lia.
    reflexivity.
Qed.

(** A failing loop fails at one token, after the tokens before it went
    through. *)
Lemma ParseTrack_loop_error toks :
  ∀ i t e,
    ParseTrack_loop ezDrummer durations i t toks = Err e →
    ∃ k tok t',
      toks !! k = Some tok ∧
      ParseTrack_loop ezDrummer durations i t (take k toks) = Ok t' ∧
      parseToken ezDrummer durations (i + k) t' tok = Err e.
Proof.
  induction toks as [|tok toks IH]; intros i t e; simpl; [discriminate|].
  destruct (parseToken ezDrummer durations i t tok) as [t1|e1] eqn:E.
  - intros Hl. destruct (IH _ _ _ Hl) as (k & tok' & t' & Hk & Hpre & Herr).
    exists (S k), tok', t'. simpl. rewrite E.
    replace (i + S k)%nat with (S i + k)%nat by lia. auto.
  - intros [= <-]. exists 0%nat, tok, t. simpl. rewrite Nat.add_0_r. auto.
Qed.

End Loop.

(** X3.  Parsing goes line by line: the result for a text followed by a line
    feed and more text is the error of the text before the line feed if
    there is one, and else what the loop makes of the tokens after it,
    starting from the track and the token count the first part left. *)
Theorem ParseTrack_lines (ezDrummer : gmap string byte)
    (durations : gmap string uint) (s1 s2 : string) :
  Text.ParseTrack ezDrummer durations (s1 +:+ String "010" s2) =
  match Text.ParseTrack ezDrummer durations s1 with
  | Err e => Err e
  | Ok t1 =>
      Text.ParseTrack_loop ezDrummer durations
        (length (Text.tokenize s1)) t1 (Text.tokenize s2)
  end.
Proof.
  unfold Text.ParseTrack. rewrite tokenize_newline, ParseTrack_loop_app.
  reflexivity.
Qed.

(** X8.  When parsing fails, the tokens before some token were parsed and
    that token failed; the number in the error is the index of that token
    counted from zero when it is a hit token or a directive token, and
    counted from one when it is a wait token or an unrecognized token. *)
Theorem ParseTrack_first_error (ezDrummer : gmap string byte)
    (durations : gmap string uint) (s : string) (e : Text.error) :
  Text.ParseTrack ezDrummer durations s = Err e →
  ∃ k tok t',
    Text.tokenize s !! k = Some tok ∧
    Text.ParseTrack_loop ezDrummer durations 0 (mkTrack [] 0)
      (take k (Text.tokenize s)) = Ok t' ∧
    Text.parseToken ezDrummer durations k t' tok = Err e ∧
    Text.token_number e =
      if MatchString Text.hitToken tok then k
      else if MatchString Text.waitToken tok then (k + 1)%nat
      else if MatchString Text.directiveToken tok then k
      else (k + 1)%nat.
Proof.
  intros Hs. unfold Text.ParseTrack in Hs.
  apply ParseTrack_loop_error in Hs as (k & tok & t' & Hk & Hpre & Herr).
  exists k, tok, t'. simpl in Herr. repeat split; auto.
  apply (parseToken_error_number ezDrummer durations k t' tok e Herr).
Qed.

Lemma ParseTrack_first_error_witness :
  ∃ k tok t',
    Text.tokenize "36 (38" !! k = Some tok ∧
    Text.ParseTrack_loop ∅ Text.durations_once 0 (mkTrack [] 0)
      (take k (Text.tokenize "36 (38")) = Ok t' ∧
    Text.parseToken ∅ Text.durations_once k t' tok =
      Err (Text.TokenError 1 Text.GraceParenthesis) ∧
    Text.token_number (Text.TokenError 1 Text.GraceParenthesis) =
      if MatchString Text.hitToken tok then k
      else if MatchString Text.waitToken tok then (k + 1)%nat
      else if MatchString Text.directiveToken tok then k
      else (k + 1)%nat.
Proof.
  apply (ParseTrack_first_error ∅ Text.durations_once "36 (38").
  vm_compute. reflexivity.
Defined.

(** ** What a token does to the track *)

Section Steps.

Import Text.

Variable ezDrummer : gmap string byte.
Variable durations : gmap string uint.

Lemma bpmDirective_frame t s t' r :
  bpmDirective t s = (t', r) →
  Hits t' = Hits t ∧
  match r with
  | Some _ => t' = t
  | None => 1 ≤ BPM t' ∧ BPM t' ≤ 500
  end.
Proof.
  unfold bpmDirective. destruct (Atoi s) as [bpm|e]; [|intros [= <- <-]; auto].
  destruct (Z.ltb_spec bpm 1) as [|H1]; [intros [= <- <-]; auto|].
  destruct (Z.ltb_spec 500 bpm) as [|H2]; [intros [= <- <-]; auto|].
  simpl. intros [= <- <-]. simpl. split; [reflexivity|].
  unfold wrap64. rewrite N.mod_small by (apply N.le_lt_trans with 500; [lia|reflexivity]).
  lia.
Qed.

Lemma parseDirective_frame t s t' r :
  parseDirective t s = (t', r) →
  Hits t' = Hits t ∧
  match r with
  | Some _ => t' = t
  | None => 1 ≤ BPM t' ∧ BPM t' ≤ 500
  end.
Proof.
  unfold parseDirective.
  destruct (directiveToken_FindStringSubmatch s) as [[m1 m2]|];
    [|intros [= <- <-]; auto].
  destruct (directives !! m1) as [d|] eqn:E; [|intros [= <- <-]; auto].
  unfold directives in E. apply lookup_singleton_Some in E as [_ <-].
  apply bpmDirective_frame.
Qed.

Lemma fmap_Notes_alter_last f hs :
  Notes <$> alter_last (set_T f) hs = Notes <$> hs.
Proof.
  destruct hs as [|l hs _] using rev_ind; [reflexivity|].
  rewrite alter_last_snoc, !fmap_app. reflexivity.
Qed.

Lemma total_ticks_snoc hs h : total_ticks (hs ++ [h]) = total_ticks hs + T h.
Proof.
  induction hs as [|a hs IH]; simpl; [lia|]. rewrite IH. lia.
Qed.

(** A token that goes through adds the hit it stands for, if it stands for
    one, and leaves the notes of the hits before it alone. *)
Lemma parseToken_notes i t tok t' :
  parseToken ezDrummer durations i t tok = Ok t' →
  Notes <$> Hits t' =
  (Notes <$> Hits t)
    ++ (Notes <$> option_list (hit_of_token ezDrummer durations tok)).
Proof.
  unfold parseToken, hit_of_token, strip_grace.
  destruct (MatchString hitToken tok).
  { destruct (halfParenthesized tok); [discriminate|]. simpl.
    destruct (parseHit ezDrummer durations _) as [h|c]; [|discriminate].
    destruct (parenthesized tok && _).
    - destruct (last (Hits t)) as [l|].
      + destruct (T l <=? T h); [discriminate|]. intros [= <-]. simpl.
        rewrite fmap_app, fmap_Notes_alter_last. reflexivity.
      + intros [= <-]. simpl. rewrite fmap_app. reflexivity.
    - intros [= <-]. simpl. rewrite fmap_app. reflexivity. }
  simpl. rewrite app_nil_r.
  destruct (MatchString waitToken tok).
  { destruct (lookup0 durations tok =? 0); [discriminate|].
    destruct (length (Hits t) =? 0)%nat; [discriminate|].
    intros [= <-]. simpl. apply fmap_Notes_alter_last. }
  destruct (MatchString directiveToken tok); [|discriminate].
  destruct (parseDirective t tok) as [t1 [c|]] eqn:E; [discriminate|].
  intros [= <-]. apply parseDirective_frame in E as [-> _]. reflexivity.
Qed.

Lemma ParseTrack_loop_notes toks :
  ∀ i t t',
    ParseTrack_loop ezDrummer durations i t toks = Ok t' →
    Notes <$> Hits t' =
    (Notes <$> Hits t)
      ++ (Notes <$> omap (hit_of_token ezDrummer durations) toks).
Proof.
  induction toks as [|tok toks IH]; intros i t t'; simpl.
  - intros [= <-]. rewrite app_nil_r. reflexivity.
  - destruct (parseToken ezDrummer durations i t tok) as [t1|e] eqn:E;
      [|discriminate].
    intros Hl. rewrite (IH _ _ _ Hl), (parseToken_notes _ _ _ _ E).
    rewrite <- app_assoc. f_equal.
    destruct (hit_of_token ezDrummer durations tok); reflexivity.
Qed.

(** The tempo after a token: what it was, or a tempo of [1, 500]. *)
Lemma parseToken_tempo i t tok t' :
  parseToken ezDrummer durations i t tok = Ok t' →
  BPM t' = BPM t ∨ (1 ≤ BPM t' ∧ BPM t' ≤ 500).
Proof.
  unfold parseToken.
  destruct (MatchString hitToken tok).
  { destruct (halfParenthesized tok); [discriminate|].
    destruct (parseHit ezDrummer durations _) as [h|c]; [|discriminate].
    destruct (parenthesized tok && _).
    - destruct (last (Hits t)) as [l|].
      + destruct (T l <=? T h); [discriminate|]. intros [= <-]. auto.
      + intros [= <-]. auto.
    - intros [= <-]. auto. }
  destruct (MatchString waitToken tok).
  { destruct (lookup0 durations tok =? 0); [discriminate|].
    destruct (length (Hits t) =? 0)%nat; [discriminate|].
    intros [= <-]. auto. }
  destruct (MatchString directiveToken tok); [|discriminate].
  destruct (parseDirective t tok) as [t1 [c|]] eqn:E; [discriminate|].
  intros [= <-]. apply parseDirective_frame in E as [_ E]. auto.
Qed.

Lemma ParseTrack_loop_tempo toks :
  ∀ i t t',
    ParseTrack_loop ezDrummer durations i t toks = Ok t' →
    BPM t' = BPM t ∨ (1 ≤ BPM t' ∧ BPM t' ≤ 500).
Proof.
  induction toks as [|tok toks IH]; intros i t t'; simpl.
  - intros [= <-]. auto.
  - destruct (parseToken ezDrummer durations i t tok) as [t1|e] eqn:E;
      [|discriminate].
    intros Hl. destruct (IH _ _ _ Hl) as [H1|H1]; [|auto].
    rewrite H1. apply (parseToken_tempo _ _ _ _ E).
Qed.

End Steps.

(** X5.  The tempo of a parsed track is 0 (no directive set it) or lies in
    [1, 500]. *)
Theorem ParseTrack_tempo (ezDrummer : gmap string byte)
    (durations : gmap string uint) (s : string) (t : Track Text.Hit) :
  Text.ParseTrack ezDrummer durations s = Ok t →
  BPM t = 0 ∨ (1 ≤ BPM t ∧ BPM t ≤ 500).
Proof. intros Hs. apply (ParseTrack_loop_tempo _ _ _ _ _ _ Hs). Qed.

Lemma ParseTrack_tempo_witness :
  (120 = 0 ∨ (1 ≤ 120 ∧ 120 ≤ 500)).
Proof.
  apply (ParseTrack_tempo ∅ Text.durations_once "bpm:7 36 bpm:120"
           (mkTrack [Text.mkHit {[36 := 96]} 96] 120)).
  vm_compute. reflexivity.
Defined.

(** X6.  A directive never touches the hits of the track, and when it
    returns an error the track is as it was.  A directive whose name is not
    [bpm] returns the error "unknown directive", whatever its value. *)
Theorem parseDirective_unknown (t : Track Text.Hit) :
  (∀ s t' r,
     Text.parseDirective t s = (t', r) →
     Hits t' = Hits t ∧ (r ≠ None → t' = t)) ∧
  (∀ name value,
     name ≠ "" → name ≠ "bpm" →
     forallb (allbut ":") (list_ascii_of_string name) = true →
     forallb (allbut "010") (list_ascii_of_string value) = true →
     Text.parseDirective t (name +:+ String ":" value) =
       (t, Some (Text.UnknownDirective name))).
Proof.
  split.
  - intros s t' r Hd. apply parseDirective_frame in Hd as [Hh Hr].
    split; [exact Hh|]. destruct r; [auto|congruence].
  - intros name value Hne Hbpm Hname Hvalue. unfold Text.parseDirective.
    assert (Text.directiveToken_FindStringSubmatch (name +:+ String ":" value)
            = Some (name, value)) as ->.
    { pose proof (directiveToken_groups (list_ascii_of_string name)
                    (list_ascii_of_string value)) as Hg.
      rewrite !string_of_list_ascii_of_string in Hg.
      rewrite <- Hg.
      - f_equal. rewrite <- (string_of_list_ascii_of_string (name +:+ _)).
        rewrite list_ascii_of_string_app. reflexivity.
      - destruct name as [|c name]; [contradiction|]. simpl in *.
        apply andb_prop in Hname as [Hc Hname].
        apply lang_plus_class; assumption.
      - apply lang_star_class. exact Hvalue. }
    unfold Text.directives. rewrite lookup_singleton_ne by congruence.
    reflexivity.
Qed.

Lemma parseDirective_unknown_witness :
  Text.parseDirective (mkTrack [] 120) ("swing" +:+ String ":" "3") =
  (mkTrack [] 120, Some (Text.UnknownDirective "swing")).
Proof.
  apply (proj2 (parseDirective_unknown (mkTrack [] 120)) "swing" "3");
    [discriminate|discriminate|reflexivity|reflexivity].
Defined.

(** X10.  The hits of a parsed track are those of its hit tokens, in the
    order of the tokens: wait tokens and directives add none, and a later
    token changes the duration of a hit only, never its notes. *)
Theorem ParseTrack_hits (ezDrummer : gmap string byte)
    (durations : gmap string uint) (s : string) (t : Track Text.Hit) :
  Text.ParseTrack ezDrummer durations s = Ok t →
  Text.Notes <$> Hits t =
  Text.Notes <$> omap (hit_of_token ezDrummer durations) (Text.tokenize s).
Proof. intros Hs. apply (ParseTrack_loop_notes _ _ _ _ _ _ Hs). Qed.

Lemma ParseTrack_hits_witness :
  Text.Notes <$> [Text.mkHit {[36 := 96]} 48; Text.mkHit {[38 := 96]} 240] =
  Text.Notes <$>
    omap (hit_of_token ∅ Text.durations_once)
      (Text.tokenize "36 (38.) bpm:90 ~").
Proof.
  apply (ParseTrack_hits ∅ Text.durations_once "36 (38.) bpm:90 ~"
           (mkTrack [Text.mkHit {[36 := 96]} 48; Text.mkHit {[38 := 96]} 240] 90)).
  vm_compute. reflexivity.
Defined.

(** X9.  A grace note borrows its time from the hit before it: a
    parenthesized hit token that follows a hit and goes through adds one hit
    and leaves the total of the durations of the track as it was. *)
Theorem grace_note_borrows (ezDrummer : gmap string byte)
    (durations : gmap string uint) (i : nat) (t t' : Track Text.Hit)
    (tok : string) :
  MatchString Text.hitToken tok = true → Text.parenthesized tok = true →
  Hits t ≠ [] →
  Text.parseToken ezDrummer durations i t tok = Ok t' →
  total_ticks (Hits t') = total_ticks (Hits t) ∧
  length (Hits t') = S (length (Hits t)).
Proof.
  intros Hm Hp Hne. unfold Text.parseToken.
  rewrite Hm, (parenthesized_not_half tok Hp), Hp.
  destruct (Text.parseHit ezDrummer durations _) as [h|c]; [|discriminate].
  destruct (Hits t) as [|l hs _] using rev_ind; [contradiction|].
  rewrite last_snoc, length_app. simpl.
  replace (0 <? length hs + 1)%nat with true
    by (symmetry; apply Nat.ltb_lt; lia).
  destruct (N.leb_spec (Text.T l) (Text.T h)) as [|Hlt]; [discriminate|].
  intros [= <-]. simpl. rewrite alter_last_snoc. split.
  - rewrite !total_ticks_snoc. simpl. lia.
  - rewrite !length_app. simpl. lia.
Qed.

Lemma grace_note_borrows_witness :
  total_ticks [Text.mkHit {[36 := 96]} 48; Text.mkHit {[38 := 96]} 48] =
    total_ticks [Text.mkHit {[36 := 96]} 96] ∧
  length [Text.mkHit {[36 := 96]} 48; Text.mkHit {[38 := 96]} 48] =
    S (length [Text.mkHit {[36 := 96]} 96]).
Proof.
  refine (grace_note_borrows ∅ Text.durations_once 1%nat
            (mkTrack [Text.mkHit {[36 := 96]} 96] 0)
            (mkTrack [Text.mkHit {[36 := 96]} 48; Text.mkHit {[38 := 96]} 48] 0)
            "(38.)" _ _ _ _);
    [reflexivity|reflexivity|discriminate|vm_compute; reflexivity].
Defined.

(** ** What a parsed hit is made of *)

Section ParsedHits.

Import Text.

Variable ezDrummer : gmap string byte.
Variable durations : gmap string uint.
Hypothesis durations_init : init_durations durations.

Lemma velocities_levels vs :
  lookup0 velocities vs ≠ 0 → lookup0 velocities vs ∈ levels.
Proof.
  assert (map_Forall (λ (_ : string) v, v ∈ levels) velocities) as Hall
    by compute_done.
  unfold lookup0. destruct (velocities !! vs) as [v|] eqn:E; simpl.
  - intros _. apply (Hall vs v E).
  - contradiction.
Qed.

Lemma durations_once_bound k : lookup0 durations_once k ≤ 384.
Proof.
  assert (map_Forall (λ (_ : string) v, v ≤ 384) durations_once) as Hall
    by compute_done.
  unfold lookup0. destruct (durations_once !! k) as [v|] eqn:E; simpl.
  - apply (Hall k v E).
  - lia.
Qed.

Lemma parseNotes_loop_notes parts :
  ∀ notes m,
    parseNotes_loop ezDrummer notes parts = Ok m →
    map_Forall note_ok notes →
    map_Forall note_ok m ∧ (notes ≠ ∅ ∨ parts ≠ [] → m ≠ ∅).
Proof.
  induction parts as [|part parts IH]; intros notes m; simpl.
  - intros [= <-] Hn. split; [exact Hn|]. intros [H|H]; [exact H|contradiction].
  - destruct (noteToken_FindStringSubmatch part) as [[m1 m2]|]; [|discriminate].
    destruct (N.eqb_spec (lookup0 (drumNotes ezDrummer) m1) 0) as [|Hnote];
      [discriminate|].
    destruct (N.eqb_spec (lookup0 velocities m2) 0) as [|Hv]; [discriminate|].
    intros Hl Hn. apply IH in Hl as [Hm Hne].
    + split; [exact Hm|]. intros _. apply Hne. left. apply insert_non_empty.
    + apply map_Forall_insert_2; [|exact Hn].
      split; [exact Hnote|apply velocities_levels; exact Hv].
Qed.

Lemma split_at_nonempty sep cur l : split_at sep cur l ≠ [].
Proof.
  revert cur. induction l as [|c l IH]; intros cur; simpl; [discriminate|].
  destruct (Ascii.eqb c sep); [discriminate|apply IH].
Qed.

(** A hit as [parseHit] returns it. *)
Lemma parseHit_hit s h :
  parseHit ezDrummer durations s = Ok h →
  Notes h ≠ ∅ ∧ map_Forall note_ok (Notes h) ∧ 0 < T h ∧ T h ≤ 384.
Proof.
  unfold parseHit, parseNotes.
  destruct (hitToken_FindStringSubmatch s) as [[m1 m2]|] eqn:Hs; [|discriminate].
  destruct (parseNotes_loop ezDrummer ∅ _) as [notes|c] eqn:Hn; [|discriminate].
  destruct (N.eqb_spec (lookup0 durations m2) 0) as [|Hd]; [discriminate|].
  intros [= <-]. simpl.
  apply parseNotes_loop_notes in Hn as [Hok Hne]; [|apply map_Forall_empty].
  split; [apply Hne; right; apply split_at_nonempty|].
  split; [exact Hok|]. split; [lia|].
  rewrite (init_durations_lookup durations m2 durations_init
             (hit_duration_gt s m1 m2 Hs)).
  apply durations_once_bound.
Qed.

Lemma hits_within_mono k k' hs : k ≤ k' → hits_within k hs → hits_within k' hs.
Proof.
  intros Hk Hin. eapply Forall_impl; [exact Hin|].
  intros h (H1 & H2 & H3 & H4).
  split; [exact H1|split; [exact H2|split; [exact H3|lia]]].
Qed.

Lemma hits_within_new k h :
  Notes h ≠ ∅ ∧ map_Forall note_ok (Notes h) ∧ 0 < T h ∧ T h ≤ 384 →
  hits_within (k + 1) [h].
Proof.
  intros (H1 & H2 & H3 & H4). constructor; [|constructor].
  split; [exact H1|split; [exact H2|split; [exact H3|lia]]].
Qed.

Lemma parseToken_hits_within i t tok t' k :
  384 * (k + 1) < 2 ^ 64 →
  parseToken ezDrummer durations i t tok = Ok t' →
  hits_within k (Hits t) → hits_within (k + 1) (Hits t').
Proof.
  intros Hfit. unfold parseToken.
  destruct (MatchString hitToken tok).
  { destruct (halfParenthesized tok); [discriminate|].
    destruct (parseHit ezDrummer durations _) as [h|c] eqn:Hh; [|discriminate].
    apply parseHit_hit in Hh.
    assert (hits_within k (Hits t) → hits_within (k + 1) (Hits t ++ [h])) as Happ.
    { intros Hin. apply Forall_app. split.
      - apply (hits_within_mono k); [lia|exact Hin].
      - apply hits_within_new. exact Hh. }
    destruct (parenthesized tok && _); [|intros [= <-]; exact Happ].
    destruct (Hits t) as [|l hs _] using rev_ind; [intros [= <-]; exact Happ|].
    rewrite last_snoc.
    destruct (N.leb_spec (T l) (T h)) as [|Hlt]; [discriminate|].
    intros [= <-] Hin. simpl. rewrite alter_last_snoc.
    apply Forall_app in Hin as [Hhs Hl].
    inversion Hl as [|? ? (L1 & L2 & L3 & L4) _]; subst.
    apply Forall_app. split; [apply Forall_app; split|].
    - apply (hits_within_mono k); [lia|exact Hhs].
    - constructor; [|constructor]. simpl.
      split; [exact L1|split; [exact L2|split; lia]].
    - apply hits_within_new. exact Hh. }
  destruct (MatchString waitToken tok) eqn:Hw.
  { destruct (N.eqb_spec (lookup0 durations tok) 0) as [|Hd]; [discriminate|].
    destruct (length (Hits t) =? 0)%nat; [discriminate|].
    intros [= <-] Hin. simpl.
    pose proof (durations_once_bound tok) as Hb.
    rewrite <- (wait_lookup durations tok durations_init Hw) in Hb.
    destruct (Hits t) as [|l hs _] using rev_ind; [constructor|].
    rewrite alter_last_snoc.
    apply Forall_app in Hin as [Hhs Hl].
    inversion Hl as [|? ? (L1 & L2 & L3 & L4) _]; subst.
    apply Forall_app. split.
    - apply (hits_within_mono k); [lia|exact Hhs].
    - constructor; [|constructor]. simpl. unfold wrap64.
      rewrite N.mod_small by lia.
      split; [exact L1|split; [exact L2|split; lia]]. }
  destruct (MatchString directiveToken tok); [|discriminate].
  destruct (parseDirective t tok) as [t1 [c|]] eqn:E; [discriminate|].
  intros [= <-]. apply parseDirective_frame in E as [-> _].
  apply hits_within_mono. lia.
Qed.

Lemma ParseTrack_loop_hits_within toks :
  ∀ i t t' k,
    384 * (k + N.of_nat (length toks)) < 2 ^ 64 →
    ParseTrack_loop ezDrummer durations i t toks = Ok t' →
    hits_within k (Hits t) →
    hits_within (k + N.of_nat (length toks)) (Hits t').
Proof.
  induction toks as [|tok toks IH]; intros i t t' k Hfit; simpl.
  - intros [= <-]. apply hits_within_mono. lia.
  - destruct (parseToken ezDrummer durations i t tok) as [t1|e] eqn:E;
      [|discriminate].
    intros Hl Hin. simpl length in Hfit.
    replace (k + N.of_nat (S (length toks)))
      with ((k + 1) + N.of_nat (length toks)) in * by lia.
    apply (IH _ _ _ _ Hfit Hl).
    apply (parseToken_hits_within i t tok t1 k); auto. lia.
Qed.

End ParsedHits.

(** X4.  Every hit of a parsed track has at least one note, every note an
    instrument that is not zero and one of the eight velocities, and the
    duration of the hit is not zero (for any text of fewer than
    2^64 / 384 tokens, where no duration can wrap around). *)
Theorem ParseTrack_hits_well_formed (ezDrummer : gmap string byte)
    (durations : gmap string uint) (s : string) (t : Track Text.Hit) :
  Text.init_durations durations →
  384 * N.of_nat (length (Text.tokenize s)) < 2 ^ 64 →
  Text.ParseTrack ezDrummer durations s = Ok t →
  Forall (λ h, Text.Notes h ≠ ∅ ∧
               map_Forall note_ok (Text.Notes h) ∧
               0 < Text.T h)
    (Hits t).
Proof.
  intros Hdu Hfit Hs.
  pose proof (ParseTrack_loop_hits_within ezDrummer durations Hdu _ _ _ _ 0
                Hfit Hs (Forall_nil_2 _)) as Hin.
  eapply Forall_impl; [exact Hin|]. intros h (H1 & H2 & H3 & _). auto.
Qed.

Lemma ParseTrack_hits_well_formed_witness :
  Forall (λ h, Text.Notes h ≠ ∅ ∧
               map_Forall note_ok (Text.Notes h) ∧
               0 < Text.T h)
    [Text.mkHit {[36 := 96]} 48; Text.mkHit {[38 := 96]} 240].
Proof.
  apply (ParseTrack_hits_well_formed ∅ Text.durations_once "36 (38.) bpm:90 ~"
           (mkTrack [Text.mkHit {[36 := 96]} 48; Text.mkHit {[38 := 96]} 240] 90)).
  - apply init_durations_once.
  - vm_compute. reflexivity.
  - vm_compute. reflexivity.
Defined.

(** ** Errors no input can cause

    [parseHit], [parseNotes] and [parseDirective] each match their argument
    against an expression again and have an error for the case that it does
    not match.  Called from [ParseTrack], the argument always matches. *)

Section Unreachable.

Import Text.

Variable ezDrummer : gmap string byte.
Variable durations : gmap string uint.

(** The pieces of a hit token. *)
Lemma hitToken_pieces l :
  lang hitToken l →
  ∃ p g1 g2 q,
    l = p ++ g1 ++ g2 ++ q ∧ lang (Opt (Chr (one "("))) p ∧
    lang notes_re g1 ∧ lang duration_re g2 ∧ lang (Opt (Chr (one ")"))) q.
Proof.
  intros Hm.
  inversion Hm as [| |? ? p r1 Hp Hr1| | | |]; subst.
  inversion Hr1 as [| |? ? g1 r2 Hg1 Hr2| | | |]; subst.
  inversion Hr2 as [| |? ? g2 q Hg2 Hq| | | |]; subst.
  exists p, g1, g2, q. auto.
Qed.

Lemma body_chars c : notes_char c || duration_char c = true → Ascii.eqb c ")" = false.
Proof. revert c. intros [[] [] [] [] [] [] [] []]; vm_compute; auto. Qed.

(** The last character of the notes and the duration is no parenthesis. *)
Lemma body_last g1 g2 :
  lang notes_re g1 → lang duration_re g2 →
  ∃ c, last (g1 ++ g2) = Some c ∧ Ascii.eqb c ")" = false.
Proof.
  intros H1 H2.
  assert (forallb (λ c, notes_char c || duration_char c) (g1 ++ g2) = true) as Hall.
  { rewrite forallb_app. apply andb_true_intro. split.
    - pose proof (lang_classes _ _ _ notes_re_classes H1) as Hc.
      rewrite forallb_forall in *. intros c Hin. rewrite (Hc c Hin). reflexivity.
    - pose proof (lang_classes _ _ _ duration_re_classes H2) as Hc.
      rewrite forallb_forall in *. intros c Hin. rewrite (Hc c Hin).
      apply orb_true_r. }
  destruct (notes_re_head g1 H1) as (c0 & s' & -> & _).
  destruct (last ((c0 :: s') ++ g2)) as [c|] eqn:E.
  - exists c. split; [reflexivity|]. apply body_chars.
    rewrite forallb_forall in Hall. apply Hall.
    apply last_Some in E as [l' ->]. apply in_app_iff. right. left. reflexivity.
  - apply last_None in E. discriminate.
Qed.

Lemma last_is_snoc c l x :
  last_is c (string_of_list_ascii (l ++ [x])) = Ascii.eqb x c.
Proof.
  unfold last_is. rewrite list_ascii_of_string_of_list_ascii, last_snoc.
  reflexivity.
Qed.

(** The slice of a token between parentheses. *)
Lemma strip_wrapped s' :
  substring 1 (String.length (String "(" (s' +:+ ")")) - 2)
    (String "(" (s' +:+ ")")) = s'.
Proof.
  assert (String.length (String "(" (s' +:+ ")")) - 2 = String.length s')%nat as ->.
  { simpl. rewrite string_length_app. simpl. lia. }
  change (substring 1 (String.length s') (String "(" (s' +:+ ")")))
    with (substring 0 (String.length s') (s' +:+ ")")).
  apply substring_prefix.
Qed.

(** What [ParseTrack] hands to [parseHit] has the groups of a hit token. *)
Lemma strip_grace_groups tok :
  MatchString hitToken tok = true → halfParenthesized tok = false →
  ∃ g1 g2,
    lang notes_re g1 ∧
    hitToken_FindStringSubmatch (strip_grace tok) =
    Some (string_of_list_ascii g1, string_of_list_ascii g2).
Proof.
  intros Hm Hh. apply matches_lang, hitToken_pieces in Hm
    as (p & g1 & g2 & q & El & Hp & H1 & H2 & Hq).
  exists g1, g2. split; [exact H1|].
  assert (tok = string_of_list_ascii (p ++ g1 ++ g2 ++ q)) as Et.
  { rewrite <- El. symmetry. apply string_of_list_ascii_of_string. }
  destruct (notes_re_head g1 H1) as (c0 & s' & Eg1 & Hc0).
  destruct (body_last g1 g2 H1 H2) as (cl & Hlast & Hcl).
  apply last_Some in Hlast as [body Ebody].
  pose proof (hitToken_groups [] g1 g2 [] (lang_alt_r _ _ _ lang_eps) H1 H2
                (lang_alt_r _ _ _ lang_eps)) as Hplain.
  rewrite app_nil_l, app_nil_r in Hplain.
  apply lang_opt_char in Hp as [->| ->]; apply lang_opt_char in Hq as [->| ->].
  - (* no parenthesis *)
    rewrite app_nil_l, app_nil_r in Et. unfold strip_grace.
    assert (parenthesized tok = false) as ->; [|rewrite Et; exact Hplain].
    unfold parenthesized. rewrite Et, Eg1. simpl.
    unfold first_is. rewrite (drum_not_open c0 Hc0). reflexivity.
  - (* only the closing one *)
    exfalso. revert Hh. unfold halfParenthesized.
    rewrite Et, Eg1. simpl. unfold first_is, last_is. simpl.
    rewrite (drum_not_open c0 Hc0).
    rewrite list_ascii_of_string_of_list_ascii.
    replace (c0 :: s' ++ g2 ++ [")"%char])
      with ((c0 :: s' ++ g2) ++ [")"%char])
      by (simpl; rewrite <- app_assoc; reflexivity).
    rewrite last_snoc. simpl. discriminate.
  - (* only the opening one *)
    exfalso. revert Hh. unfold halfParenthesized.
    rewrite Et, app_nil_r. simpl. unfold first_is, last_is. simpl.
    rewrite list_ascii_of_string_of_list_ascii, Ebody.
    change ("("%char :: body ++ [cl]) with (("("%char :: body) ++ [cl]).
    rewrite last_snoc, Hcl. simpl. discriminate.
  - (* both *)
    assert (tok = String "(" (string_of_list_ascii (g1 ++ g2) +:+ ")")) as Ew.
    { rewrite Et. simpl. f_equal.
      rewrite app_assoc, string_of_list_ascii_app. reflexivity. }
    unfold strip_grace.
    assert (parenthesized tok = true) as ->.
    { unfold parenthesized. rewrite Et. simpl. unfold last_is. simpl.
      rewrite list_ascii_of_string_of_list_ascii.
      replace ("("%char :: g1 ++ g2 ++ [")"%char])
        with (("("%char :: g1 ++ g2) ++ [")"%char])
        by (simpl; rewrite <- app_assoc; reflexivity).
      rewrite last_snoc. reflexivity. }
    rewrite Ew, strip_wrapped. exact Hplain.
Qed.

Lemma note_re_no_comma a :
  lang note_re a → forallb (allbut ",") a = true.
Proof.
  apply lang_classes. simpl. repeat split;
    intros [[] [] [] [] [] [] [] []]; vm_compute; auto.
Qed.

Lemma split_at_part cur a :
  forallb (allbut ",") a = true →
  (split_at "," cur a = [string_of_list_ascii (cur ++ a)]) ∧
  ∀ r, split_at "," cur (a ++ ","%char :: r) =
       string_of_list_ascii (cur ++ a) :: split_at "," [] r.
Proof.
  revert cur. induction a as [|c a IH]; intros cur Ha; simpl.
  - rewrite app_nil_r. split; reflexivity.
  - apply andb_prop in Ha as [Hc Ha]. unfold allbut in Hc.
    apply negb_true_iff in Hc. rewrite Ascii.eqb_sym in Hc. rewrite Hc.
    destruct (IH (cur ++ [c]) Ha) as [E1 E2].
    rewrite <- app_assoc in E1. split; [exact E1|].
    intros r. rewrite E2, <- app_assoc. reflexivity.
Qed.

(** The parts of group 1 between commas are notes. *)
Lemma notes_re_parts rest :
  lang (Star (Cat (Chr (one ",")) note_re)) rest →
  ∀ a, lang note_re a →
    Forall (λ part, MatchString noteToken part = true)
      (split_at "," [] (a ++ rest)).
Proof.
  intros Hl. remember (Star (Cat (Chr (one ",")) note_re)) as r eqn:Er.
  induction Hl as [| | | | |r0|r0 s1 s2 H1 _ H2 IH]; try discriminate;
    intros a Ha.
  - rewrite app_nil_r.
    rewrite (proj1 (split_at_part [] a (note_re_no_comma a Ha))).
    constructor; [|constructor]. unfold MatchString.
    rewrite list_ascii_of_string_of_list_ascii. apply matches_lang. exact Ha.
  - injection Er as ->.
    inversion H1 as [| |? ? c1 a1 Hc Ha1| | | |]; subst.
    inversion Hc as [|? c Hcomma| | | | |]; subst.
    apply Ascii.eqb_eq in Hcomma. subst c.
    rewrite <- app_assoc. simpl.
    rewrite (proj2 (split_at_part [] a (note_re_no_comma a Ha))).
    constructor; [|apply IH; auto].
    unfold MatchString. rewrite list_ascii_of_string_of_list_ascii.
    apply matches_lang. exact Ha.
Qed.

Lemma parseNotes_loop_cause parts :
  Forall (λ part, MatchString noteToken part = true) parts →
  ∀ notes c,
    parseNotes_loop ezDrummer notes parts = Err c → unreachable_cause c = false.
Proof.
  induction 1 as [|part parts Hpart _ IH]; intros notes c; simpl; [discriminate|].
  unfold noteToken_FindStringSubmatch. rewrite Hpart.
  destruct (span drum (list_ascii_of_string part)) as [g1 g2].
  destruct (lookup0 (drumNotes ezDrummer) _ =? 0); [intros [= <-]; reflexivity|].
  destruct (lookup0 velocities _ =? 0); [intros [= <-]; reflexivity|].
  apply IH.
Qed.

Lemma parseHit_cause tok c :
  MatchString hitToken tok = true → halfParenthesized tok = false →
  parseHit ezDrummer durations (strip_grace tok) = Err c →
  unreachable_cause c = false.
Proof.
  intros Hm Hh. destruct (strip_grace_groups tok Hm Hh) as (g1 & g2 & H1 & Hs).
  unfold parseHit, parseNotes. rewrite Hs.
  rewrite list_ascii_of_string_of_list_ascii.
  destruct (parseNotes_loop ezDrummer ∅ _) as [notes|e] eqn:Hn.
  - destruct (lookup0 durations _ =? 0); [intros [= <-]; reflexivity|discriminate].
  - intros [= <-]. revert Hn. apply parseNotes_loop_cause.
    inversion H1 as [| |? ? a rest Ha Hrest| | | |]; subst.
    apply notes_re_parts; assumption.
Qed.

Lemma parseToken_cause i t tok n c :
  parseToken ezDrummer durations i t tok = Err (TokenError n c) →
  unreachable_cause c = false.
Proof.
  unfold parseToken.
  destruct (MatchString hitToken tok) eqn:Hm.
  { destruct (halfParenthesized tok) eqn:Hh; [intros [= <- <-]; reflexivity|].
    pose proof (parseHit_cause tok) as Hc. unfold strip_grace in Hc.
    destruct (parseHit ezDrummer durations _) as [h|e].
    - destruct (parenthesized tok && _); [|discriminate].
      destruct (last (Hits t)) as [l|]; [|discriminate].
      destruct (T l <=? T h); [intros [= <- <-]; reflexivity|discriminate].
    - intros [= <- <-]. apply Hc; auto. }
  destruct (MatchString waitToken tok).
  { destruct (lookup0 durations tok =? 0); [intros [= <- <-]; reflexivity|].
    destruct (length (Hits t) =? 0)%nat; [intros [= <- <-]; reflexivity|discriminate]. }
  destruct (MatchString directiveToken tok) eqn:Hd; [|intros [= <- <-]; reflexivity].
  unfold parseDirective, directiveToken_FindStringSubmatch. rewrite Hd.
  destruct (span (allbut ":") (list_ascii_of_string tok)) as [g1 rest].
  destruct (directives !! _) as [d|] eqn:E.
  - unfold directives in E. apply lookup_singleton_Some in E as [_ <-].
    unfold bpmDirective. destruct (Atoi _) as [bpm|e].
    + destruct ((bpm <? 1)%Z || (500 <? bpm)%Z);
        [intros [= <- <-]; reflexivity|discriminate].
    + intros [= <- <-]. reflexivity.
  - intros [= <- <-]. reflexivity.
Qed.

End Unreachable.

(** X7.  No text makes [ParseTrack] fail with "bad hit", "bad note token" or
    "bad directive": what it hands to [parseHit], [parseNotes] and
    [parseDirective] always matches the expression they test again. *)
Theorem ParseTrack_unreachable_errors (ezDrummer : gmap string byte)
    (durations : gmap string uint) (s : string) (n : nat) (c : Text.cause) :
  Text.ParseTrack ezDrummer durations s = Err (Text.TokenError n c) →
  unreachable_cause c = false.
Proof.
  intros Hs. unfold Text.ParseTrack in Hs.
  apply ParseTrack_loop_error in Hs as (k & tok & t' & _ & _ & Herr).
  apply (parseToken_cause ezDrummer durations _ _ _ _ _ Herr).
Qed.

Lemma ParseTrack_unreachable_errors_witness :
  unreachable_cause (Text.BadDrumNumber "0") = false.
Proof.
  apply (ParseTrack_unreachable_errors ∅ Text.durations_once "36 (0,38+)" 1%nat).
  vm_compute. reflexivity.
Defined.

(** ** The tables of [init] *)

Section LongerRun.

Import Text.

(** A run of the loop may start with any keys that are there, each once. *)
Lemma init_range_prefix m0 ds :
  ∀ seen m m',
    NoDup ds → (∀ d, d ∈ ds → d ∈ dom m ∧ d ∉ seen) →
    init_range m0 (seen ∪ list_to_set ds) (foldl add_triplet m ds) m' →
    init_range m0 seen m m'.
Proof.
  induction ds as [|d ds IH]; intros seen m m' Hnd Hds Hrest; simpl in Hrest.
  - replace seen with (seen ∪ (∅ : gset string)) by apply union_empty_r_L.
    exact Hrest.
  - apply NoDup_cons in Hnd as [Hd Hnd].
    destruct (Hds d) as [Hdm Hseen]; [left|].
    eapply init_range_visit; [exact Hdm|exact Hseen|].
    apply IH; auto.
    + intros d' Hd'. destruct (Hds d') as [Hdm' Hseen']; [right; exact Hd'|].
      split.
      * unfold add_triplet. rewrite dom_insert_L.
        apply elem_of_union_r. exact Hdm'.
      * intros [?| ->%elem_of_singleton]%elem_of_union; contradiction.
    + replace (seen ∪ {[d]} ∪ list_to_set ds)
        with (seen ∪ ({[d]} ∪ list_to_set ds : gset string))
        by apply union_assoc_L.
      exact Hrest.
Qed.

(** The run that, after the eight keys of the literal, also visits the
    triplet [.>] it has just made, and so adds the key [.>>]. *)
Lemma init_durations_longer :
  init_durations (add_triplet durations_once ".>").
Proof.
  unfold init_durations.
  apply (init_range_prefix durations_literal literal_keys).
  - compute_done.
  - intros d Hd. split; [apply literal_dom; exact Hd|apply not_elem_of_empty].
  - fold durations_once.
    apply (init_range_visit _ _ _ ".>");
      [apply elem_of_dom; vm_compute; eauto| |apply init_range_done].
    + intros [H|H]%elem_of_union; [apply elem_of_empty in H; exact H|].
      apply elem_of_list_to_set in H. revert H. compute_done.
    + intros d Hd. apply literal_dom in Hd.
      apply elem_of_union_l, elem_of_union_r, elem_of_list_to_set. exact Hd.
Qed.

End LongerRun.

(** X11.  The loop of [init] that adds the triplets ranges over the map it
    inserts into, so the table may hold more keys after one run than after
    another; whichever run built it, the eight suffixes have the durations
    of the literal, the triplet of each is two thirds of it, rounded down,
    and [ParseTrack] returns the same result. *)
Theorem init_order_invisible (ezDrummer : gmap string byte)
    (du1 du2 : gmap string uint) (s : string) :
  Text.init_durations du1 → Text.init_durations du2 →
  Text.ParseTrack ezDrummer du1 s = Text.ParseTrack ezDrummer du2 s ∧
  ∀ d, d ∈ literal_keys →
    lookup0 du1 d = lookup0 Text.durations_literal d ∧
    lookup0 du1 (d +:+ ">") = lookup0 Text.durations_literal d * 2 / 3.
Proof.
  intros H1 H2. split.
  - rewrite (ParseTrack_any_init ezDrummer du1 s H1).
    rewrite (ParseTrack_any_init ezDrummer du2 s H2). reflexivity.
  - intros d Hd. apply literal_dom in Hd.
    pose proof (literal_plain d Hd) as Hc. split.
    + rewrite (init_durations_lookup du1 d H1) by lia.
      unfold lookup0. rewrite once_plain by exact Hc. reflexivity.
    + rewrite (init_durations_lookup du1 (d +:+ ">") H1)
        by (rewrite gt_count_triplet; lia).
      unfold lookup0 at 1. rewrite (once_triplet d Hd). simpl.
      unfold wrap64. rewrite N.mod_small; [reflexivity|].
      assert (map_Forall (λ (_ : string) v, v ≤ 384) Text.durations_literal)
        as Hall by compute_done.
      apply N.le_lt_trans with 768; [|reflexivity].
      unfold lookup0. destruct (Text.durations_literal !! d) as [v|] eqn:E.
      * specialize (Hall d v E). simpl in *. lia.
      * simpl. lia.
Qed.

Lemma init_order_invisible_witness :
  Text.ParseTrack ∅ Text.durations_once "36 .>" =
    Text.ParseTrack ∅ (Text.add_triplet Text.durations_once ".>") "36 .>" ∧
  ∀ d, d ∈ literal_keys →
    lookup0 Text.durations_once d = lookup0 Text.durations_literal d ∧
    lookup0 Text.durations_once (d +:+ ">") =
      lookup0 Text.durations_literal d * 2 / 3.
Proof.
  apply (init_order_invisible ∅ Text.durations_once
           (Text.add_triplet Text.durations_once ".>") "36 .>").
  - apply init_durations_once.
  - apply init_durations_longer.
Defined.

Section DrumNotes.

Import Text.

Lemma numbered_notes_entries : map_Forall numbered_entry numbered_notes.
Proof.
  assert (map_Forall
            (λ k v, bool_decide (k = Sprint v) && (1 <=? v) && (v <=? 255) = true)
            numbered_notes) as Hall by compute_done.
  intros k v Hk. specialize (Hall k v Hk). cbv beta in Hall.
  apply andb_prop in Hall as [Hall H3]. apply andb_prop in Hall as [H1 H2].
  apply bool_decide_eq_true_1 in H1. apply N.leb_le in H2, H3.
  split; auto.
Qed.

Lemma numbered_notes_lookup n :
  1 ≤ n → n ≤ 255 → lookup0 numbered_notes (Sprint n) = n.
Proof.
  intros H1 H2.
  assert ((n =? 0) || (lookup0 numbered_notes (Sprint n) =? n) = true) as Hn.
  { apply (below_cases
             (λ n, (n =? 0) || (lookup0 numbered_notes (Sprint n) =? n)) 256);
      [vm_compute; reflexivity|lia]. }
  apply orb_prop in Hn as [Hn|Hn]; apply N.eqb_eq in Hn; [lia|exact Hn].
Qed.

End DrumNotes.

(** X12.  The table [drumNotes] that [init] builds: an alias maps to its
    code, also when its name is a number; the decimal of a number of 1..255
    that is no alias maps to that number; and any other string that is no
    alias maps to nothing, as ["0"], ["256"] and ["036"] do. *)
Theorem drumNotes_table (ezDrummer : gmap string byte) :
  (∀ k v, ezDrummer !! k = Some v →
          lookup0 (Text.drumNotes ezDrummer) k = v) ∧
  (∀ n, 1 ≤ n → n ≤ 255 → ezDrummer !! Text.Sprint n = None →
        lookup0 (Text.drumNotes ezDrummer) (Text.Sprint n) = n) ∧
  (∀ k, ezDrummer !! k = None →
        lookup0 (Text.drumNotes ezDrummer) k ≠ 0 →
        ∃ n, 1 ≤ n ∧ n ≤ 255 ∧ k = Text.Sprint n).
Proof.
  split; [|split].
  - intros k v Hk. unfold lookup0, Text.drumNotes.
    rewrite (lookup_union_Some_l _ _ _ _ Hk). reflexivity.
  - intros n H1 H2 Hk. rewrite drumNotes_numbered by exact Hk.
    apply numbered_notes_lookup; assumption.
  - intros k Hk. rewrite drumNotes_numbered by exact Hk. unfold lookup0.
    destruct (Text.numbered_notes !! k) as [v|] eqn:E; [|contradiction].
    intros _. destruct (numbered_notes_entries k v E) as (-> & H1 & H2).
    exists v. auto.
Qed.

Lemma drumNotes_table_witness :
  lookup0 (Text.drumNotes {[ "K" := 36 ]}) "K" = 36 ∧
  lookup0 (Text.drumNotes {[ "K" := 36 ]}) (Text.Sprint 38) = 38.
Proof.
  split.
  - apply (proj1 (drumNotes_table {[ "K" := 36 ]}) "K" 36). reflexivity.
  - apply (proj1 (proj2 (drumNotes_table {[ "K" := 36 ]})) 38);
      [lia|lia|reflexivity].
Defined.

(** ** Sizes of the encoding *)

Section Sizes.

Import Midi Types.

Lemma length_note_ons v on :
  length (concat (Spec.event_bytes <$> (Spec.note_on v <$> on))) =
  (4 * length on)%nat.
Proof.
  induction on as [|n on IH]; [reflexivity|].
  rewrite !fmap_cons. cbn [concat]. rewrite length_app, IH.
  change (length (Spec.event_bytes (Spec.note_on v n))) with 4%nat.
  cbn [length]. lia.
Qed.

Lemma length_note_offs_later off :
  length (concat (Spec.event_bytes <$> (Spec.note_off 0 <$> off))) =
  (4 * length off)%nat.
Proof.
  induction off as [|n off IH]; [reflexivity|].
  rewrite !fmap_cons. cbn [concat]. rewrite length_app, IH.
  change (length (Spec.event_bytes (Spec.note_off 0 n))) with 4%nat.
  cbn [length]. lia.
Qed.

Lemma encode_run_length h on off :
  length on = size (Notes h) → length off = size (Notes h) →
  length (encode_run h on off) = hit_size h.
Proof.
  intros Hon Hoff. rewrite encode_run_events. unfold Spec.hit_events, hit_size.
  rewrite fmap_app, concat_app, length_app, length_note_ons, Hon.
  destruct off as [|n off].
  - rewrite <- Hoff. reflexivity.
  - rewrite <- Hoff. cbn [Spec.note_offs length].
    rewrite fmap_cons. cbn [concat].
    rewrite length_app, length_note_offs_later, event_bytes_note_off, length_app.
    cbn [length]. lia.
Qed.

Lemma encode_length h bs : encode h bs → length bs = hit_size h.
Proof.
  intros [on off Hon Hoff]. apply encode_run_length.
  - unfold range_order in Hon. rewrite Hon. reflexivity.
  - unfold range_order in Hoff. rewrite Hoff. reflexivity.
Qed.

Lemma encoded_length hs encoded :
  Forall2 encode hs encoded →
  length (concat encoded) = sum_list (hit_size <$> hs).
Proof.
  induction 1 as [|h bs hs encoded Hh _ IH]; simpl; [reflexivity|].
  rewrite length_app, IH, (encode_length h bs Hh). reflexivity.
Qed.

End Sizes.

(** X13.  The bytes [Hit.encode] returns for a hit of [k] notes are eight for
    each note, where the delta-time of the first note-off takes the place of
    one zero byte; a hit without notes encodes to nothing, so its duration
    does not reach the file. *)
Theorem encode_size (h : Types.Hit) (bs : list byte) :
  Types.encode h bs →
  length bs = hit_size h ∧ (Types.Notes h = ∅ → bs = []).
Proof.
  intros He. pose proof (encode_length h bs He) as Hl. split; [exact Hl|].
  intros Hn. apply length_zero_iff_nil. rewrite Hl. unfold hit_size.
  rewrite Hn, size_empty. reflexivity.
Qed.

Lemma encode_size_witness :
  length (Types.encode_run (Types.NewHit 96 96 [36; 38]) [36; 38] [38; 36]) =
    hit_size (Types.NewHit 96 96 [36; 38]) ∧
  (Types.Notes (Types.NewHit 96 96 [36; 38]) = ∅ →
   Types.encode_run (Types.NewHit 96 96 [36; 38]) [36; 38] [38; 36] = []).
Proof.
  apply (encode_size (Types.NewHit 96 96 [36; 38])).
  constructor; unfold Types.range_order; vm_compute (elements _).
  - apply perm_swap.
  - reflexivity.
Defined.

(** X14.  A track with a tempo of [1, 500] has an encoding; every encoding
    of a track starts with the header chunk [MThd 0 0 0 6 0 1 0 2 0 96] and
    is 53 bytes and the bytes of its hits long, whatever order the notes were
    visited in. *)
Theorem MarshalBinary_size (t : Track Types.Hit) :
  (1 ≤ BPM t → BPM t ≤ 500 → ∃ out, Types.MarshalBinary t out) ∧
  (∀ out, Types.MarshalBinary t out →
     length out = (53 + sum_list (hit_size <$> Hits t))%nat ∧
     take 14 out = [77; 84; 104; 100; 0; 0; 0; 6; 0; 1; 0; 2; 0; 96]).
Proof.
  split.
  - intros H1 H2. destruct (encodeHits_total t) as [hits Hh].
    eexists. eexists. exists hits. split; [|split; [exact Hh|reflexivity]].
    apply encodeMetaChunk_layout, uspb_quotient; assumption.
  - intros out (meta & hits & Hm & (encoded & He & ->) & ->).
    unfold Types.encodeMetaChunk in Hm.
    destruct (Types.uspb (BPM t)) as [u|]; [|discriminate].
    injection Hm as <-. split; [|reflexivity].
    rewrite encodeHits_run_body. cbn zeta.
    rewrite !length_app, (encoded_length _ _ He). simpl. lia.
Qed.

Lemma MarshalBinary_size_witness :
  ∃ out, Types.MarshalBinary (mkTrack [Types.NewHit 96 96 [36; 38]] 120) out.
Proof.
  apply (proj1 (MarshalBinary_size (mkTrack [Types.NewHit 96 96 [36; 38]] 120)));
    simpl; lia.
Defined.

(** X15.  [NewHit] makes a hit of the set of the notes it is given: a note is
    in the hit exactly when it is among the arguments, so that their order
    and their repetitions make no difference. *)
Theorem NewHit_notes (ticks : uint) (v : byte) (notes : list byte) :
  (∀ n, n ∈ Types.Notes (Types.NewHit ticks v notes) ↔ n ∈ notes) ∧
  (∀ notes', (∀ n, n ∈ notes ↔ n ∈ notes') →
             Types.NewHit ticks v notes = Types.NewHit ticks v notes').
Proof.
  assert (∀ (l : list byte) (acc : gset byte) n,
            n ∈ foldl (λ s n, {[n]} ∪ s) acc l ↔ n ∈ acc ∨ n ∈ l) as Hfold.
  { induction l as [|x l IH]; intros acc n; simpl.
    - rewrite elem_of_nil. tauto.
    - rewrite IH, elem_of_union, elem_of_singleton, elem_of_cons. tauto. }
  assert (∀ l n, n ∈ Types.Notes (Types.NewHit ticks v l) ↔ n ∈ l) as Hin.
  { intros l n. unfold Types.NewHit. simpl. rewrite Hfold, elem_of_empty. tauto. }
  split; [apply Hin|].
  intros notes' Hsame. unfold Types.NewHit. f_equal.
  apply set_eq. intros n.
  pose proof (Hin notes n) as H1. pose proof (Hin notes' n) as H2.
  unfold Types.NewHit in H1, H2. simpl in H1, H2.
  rewrite H1, H2. apply Hsame.
Qed.

Lemma NewHit_notes_witness :
  Types.NewHit 96 96 [36; 38; 36] = Types.NewHit 96 96 [38; 36].
Proof.
  apply (proj2 (NewHit_notes 96 96 [36; 38; 36]) [38; 36]).
  intros n. rewrite !elem_of_cons, !elem_of_nil. tauto.
Defined.

(** ** A text without a tempo *)

Section NoTempo.

Import Text.

Variable ezDrummer : gmap string byte.
Variable durations : gmap string uint.

(** Only a directive token changes the tempo. *)
Lemma parseToken_keeps_tempo i t tok t' :
  MatchString hitToken tok = true ∨ MatchString waitToken tok = true →
  parseToken ezDrummer durations i t tok = Ok t' → BPM t' = BPM t.
Proof.
  intros Hk. unfold parseToken.
  destruct (MatchString hitToken tok).
  { destruct (halfParenthesized tok); [discriminate|].
    destruct (parseHit ezDrummer durations _) as [h|c]; [|discriminate].
    destruct (parenthesized tok && _).
    - destruct (last (Hits t)) as [l|].
      + destruct (T l <=? T h); [discriminate|]. intros [= <-]. reflexivity.
      + intros [= <-]. reflexivity.
    - intros [= <-]. reflexivity. }
  destruct Hk as [Hk|Hk]; [discriminate|]. rewrite Hk.
  destruct (lookup0 durations tok =? 0); [discriminate|].
  destruct (length (Hits t) =? 0)%nat; [discriminate|].
  intros [= <-]. reflexivity.
Qed.

Lemma ParseTrack_loop_keeps_tempo toks :
  Forall (λ tok, MatchString hitToken tok = true ∨
                 MatchString waitToken tok = true) toks →
  ∀ i t t',
    ParseTrack_loop ezDrummer durations i t toks = Ok t' → BPM t' = BPM t.
Proof.
  induction 1 as [|tok toks Htok _ IH]; intros i t t'; simpl.
  - intros [= <-]. reflexivity.
  - destruct (parseToken ezDrummer durations i t tok) as [t1|e] eqn:E;
      [|discriminate].
    intros Hl. rewrite (IH _ _ _ Hl).
    apply (parseToken_keeps_tempo i t tok t1 Htok E).
Qed.

End NoTempo.

(** X17.  The parser never gives a track a tempo of its own: the track of a
    text made of hit and wait tokens only has the tempo 0, and for that
    tempo the microseconds per beat of [encodeMetaChunk] are the conversion
    of an infinite [float64] to [uint32], which has no defined value. *)
Theorem ParseTrack_no_tempo (ezDrummer : gmap string byte)
    (durations : gmap string uint) (s : string) (t : Track Text.Hit) :
  Forall (λ tok, MatchString Text.hitToken tok = true ∨
                 MatchString Text.waitToken tok = true) (Text.tokenize s) →
  Text.ParseTrack ezDrummer durations s = Ok t →
  BPM t = 0 ∧ Types.uspb (BPM t) = None.
Proof.
  intros Htoks Hs.
  assert (BPM t = 0) as E
    by apply (ParseTrack_loop_keeps_tempo _ _ _ Htoks _ _ _ Hs).
  split; [exact E|]. rewrite E. vm_compute. reflexivity.
Qed.

Lemma ParseTrack_no_tempo_witness :
  BPM (mkTrack [Text.mkHit {[36 := 96]} 144] 0) = 0 ∧
  Types.uspb (BPM (mkTrack [Text.mkHit {[36 := 96]} 144] 0)) = None.
Proof.
  apply (ParseTrack_no_tempo ∅ Text.durations_once "36 .").
  - vm_compute (Text.tokenize _).
    constructor; [left; vm_compute; reflexivity|].
    constructor; [right; vm_compute; reflexivity|constructor].
  - vm_compute. reflexivity.
Defined.
